(** * jacobi_noft.c: the SOR stencil pass and the iteration driver

    A shallow embedding of [SOR1] and [jacobi_cpu] of [src/jacobi_noft.c],
    one MPI process at a time.  Grid buffers are lists of scalars indexed
    row-major, the two grid buffers of [jacobi_cpu] live in a two-block heap
    that is addressed through the pointers [om] and [nm], and what the
    process does to the outside (MPI calls, prints, frees) is kept in a log. *)

From Stdlib Require Import ZArith Lia Sorted.
From Stdlib Require PrimFloat Uint63.
From Stdlib Require FloatOps SpecFloat FloatAxioms.
From stdpp Require Import base list sorting.

(** ** Scalars

    [jacobi.h], which fixes [TYPE], is not part of the sources.  The code
    only needs the operations below, so the embedding is written over a
    class of scalars; [SOR1] and the driver never use a law of arithmetic. *)

Class Scalar (T : Type) := {
  s_add : T -> T -> T;
  s_sub : T -> T -> T;
  s_mul : T -> T -> T;
  s_div : T -> T -> T;
  s_sqrt : T -> T;
  s_pi : T;                (* M_PI *)
  s_of_int : Z -> T;       (* (TYPE)n, and the literals 0.0, 1, 2.0, 4.0 *)
}.

Declare Scope sc_scope.
Delimit Scope sc_scope with sc.
Infix "+" := s_add : sc_scope.
Infix "-" := s_sub : sc_scope.
Infix "*" := s_mul : sc_scope.
Infix "/" := s_div : sc_scope.
Notation "# n" := (s_of_int n%Z) (at level 1, n at level 0, format "# n") : sc_scope.

(** IEEE 754 binary64, the usual [double]: the instance concrete runs use. *)
Section Binary64.
Import PrimFloat.

Definition float_of_Z (z : Z) : PrimFloat.float :=
  match z with
  | Z0 => 0%float
  | Zpos _ => PrimFloat.of_uint63 (Uint63.of_Z z)
  | Zneg _ => PrimFloat.opp (PrimFloat.of_uint63 (Uint63.of_Z (- z)))
  end.

(** [M_PI] of math.h, 3.14159265358979323846 rounded to binary64. *)
Definition M_PI : PrimFloat.float := 0x1.921fb54442d18p+1%float.

#[export] Instance float_scalar : Scalar PrimFloat.float := {|
  s_add := PrimFloat.add;
  s_sub := PrimFloat.sub;
  s_mul := PrimFloat.mul;
  s_div := PrimFloat.div;
  s_sqrt := PrimFloat.sqrt;
  s_pi := M_PI;
  s_of_int := float_of_Z;
|}.

End Binary64.

(** ** Grid buffers and the stencil pass *)

Section Stencil.
Context {T : Type} `{Scalar T}.

(** [a[k]].  A C read outside the allocation is undefined; here it gives
    0.0, and the theorems assume buffers of (nb+2)*(mb+2) cells, for which
    every access of [SOR1] is inside. *)
Definition get (a : list T) (k : nat) : T := default (#0)%sc (a !! k).

(** [pos = 1 + i + (j + 1) * (nb + 2)] *)
Definition idx (nb i j : nat) : nat := 1 + i + (j + 1) * (nb + 2).

(** [_W = 2.0 / (1.0 + M_PI / (TYPE)nb)] *)
Definition relax_W (nb : nat) : T :=
  (#2 / (#1 + s_pi / s_of_int (Z.of_nat nb)))%sc.

(** The value stored by the assignment of lines 115-118, given the
    destination buffer [nm] as it is when the cell is reached. *)
Definition stencil (W : T) (nm om : list T) (nb pos : nat) : T :=
  ((#1 - W) * get om pos +
   W / #4 * (get nm (pos - 1) + get om (pos + 1) +
             get nm (pos - (nb + 2)) + get om (pos + (nb + 2))))%sc.

(** The body of the inner loop at position [pos]: the store into [nm], then
    the accumulation into [norm], which reads [nm[pos]] back. *)
Definition SOR1_at (W : T) (om : list T) (nb : nat)
    (acc : list T * T) (pos : nat) : list T * T :=
  let '(nm, norm) := acc in
  let nm := <[pos := stencil W nm om nb pos]> nm in
  (nm, (norm + (get nm pos - get om pos) * (get nm pos - get om pos))%sc).

Definition SOR1_row (W : T) (om : list T) (nb : nat)
    (acc : list T * T) (j : nat) : list T * T :=
  foldl (fun acc i => SOR1_at W om nb acc (idx nb i j)) acc (seq 0 nb).

(** [SOR1(nm, om, nb, mb)]: the buffer [nm] after the call and the value
    returned.  The dimensions are the non-negative values of the [int]
    parameters (a negative bound runs no iteration, like 0). *)
Definition SOR1 (nm om : list T) (nb mb : nat) : list T * T :=
  foldl (SOR1_row (relax_W nb) om nb) (nm, (#0)%sc) (seq 0 mb).

(** The interior positions in the order the loops visit them. *)
Definition interior (nb mb : nat) : list nat :=
  concat (map (fun j => map (fun i => idx nb i j) (seq 0 nb)) (seq 0 mb)).

(** Squared change of one cell, as line 121 computes it. *)
Definition sqdiff (nm om : list T) (pos : nat) : T :=
  ((get nm pos - get om pos) * (get nm pos - get om pos))%sc.

End Stencil.

(** ** The iteration driver *)

(** The two grid buffers of [jacobi_cpu]: the block the caller passes as
    [matrix] and the block [calloc] returns.  [om] and [nm] are pointers to
    them. *)
Inductive buf := Matrix | Fresh.

#[export] Instance buf_eq_dec : EqDecision buf.
Proof. solve_decision. Defined.

Inductive dir := North | South | East | West.

Section Driver.
Context {T : Type} `{Scalar T}.

(** A block is [None] once it has been freed. *)
Record heap := Heap {
  blk_matrix : option (list T);
  blk_fresh : option (list T);
}.

Definition block (h : heap) (p : buf) : option (list T) :=
  match p with Matrix => blk_matrix h | Fresh => blk_fresh h end.

Definition load (h : heap) (p : buf) : list T := default [] (block h p).

Definition store (h : heap) (p : buf) (v : list T) : heap :=
  match p with
  | Matrix => Heap ((fun _ => v) <$> blk_matrix h) (blk_fresh h)
  | Fresh => Heap (blk_matrix h) ((fun _ => v) <$> blk_fresh h)
  end.

Definition free (h : heap) (p : buf) : heap :=
  match p with
  | Matrix => Heap None (blk_fresh h)
  | Fresh => Heap (blk_matrix h) None
  end.

(** What the process does to the outside, in program order. *)
Inductive event :=
| EvCommSplit (color key : Z)               (* MPI_Comm_split(comm, color, key, _) *)
| EvPrint (iter : Z) (root : option T) (epsilon : T)
      (* the printf of line 175; [root] is sqrt(diff_norm), [None] when
         diff_norm has not been assigned *)
| EvPng (iter : Z) (src : buf)              (* create_png(_, om, NB, MB) *)
| EvIrecv (d : dir) (peer : Z) (count : nat)
| EvIsend (d : dir) (peer : Z) (data : list T)
| EvWaitall
| EvAllreduce (contribution : T)
| EvTimings                                 (* print_timings: two MPI_Reduce *)
| EvFree (p : buf)
| EvCommFree.

(** The arguments of [jacobi_cpu]; [comm] is given by the rank and size it
    reports.  The extents NB, MB are non-negative. *)
Record args := Args {
  a_matrix : list T;
  a_NB : nat;
  a_MB : nat;
  a_P : Z;
  a_Q : Z;
  a_rank : Z;
  a_size : Z;
  a_epsilon : T;
  a_max_iter : Z;
  a_save_output : bool;
}.

(** What the rest of the world supplies during a run. *)
Record world := World {
  w_malloc : dir -> list T;        (* contents of recv_east / recv_west as malloc returns them *)
  w_recv : Z -> dir -> list T;     (* the message each posted receive gets, by iteration *)
  w_allreduce : Z -> T -> T;       (* the global sum, by iteration, from the local value *)
}.

(** [MPI_Comm_split(comm, color, rank, &c)] followed by [MPI_Comm_size] and
    [MPI_Comm_rank] on [c]: the processes of one colour, ordered by key. *)
Definition comm_split (size : Z) (color : Z -> Z) (rank : Z) : Z * Z :=
  let group := filter (fun r => color r = color rank) (seqZ 0 size) in
  (Z.of_nat (length group),
   Z.of_nat (length (filter (fun r => (r < rank)%Z) group))).

(** Modelled from the spec: the macros RECV_NORTH, RECV_SOUTH, SEND_NORTH and
    SEND_SOUTH of the absent jacobi.h.  "North/south neighbor data is a full
    contiguous row of NB values: the first/last interior row of the source
    buffer, written directly into the adjacent process's ghost row."  The
    definitions give the offset of the row inside the buffer. *)
Definition RECV_NORTH (nb mb : nat) : nat := 1.
Definition RECV_SOUTH (nb mb : nat) : nat := (mb + 1) * (nb + 2) + 1.
Definition SEND_NORTH (nb mb : nat) : nat := (nb + 2) + 1.
Definition SEND_SOUTH (nb mb : nat) : nat := mb * (nb + 2) + 1.

(** A message of at most [length data] values landing at [a + off]. *)
Fixpoint write_at (off : nat) (data : list T) (a : list T) : list T :=
  match data with
  | [] => a
  | x :: data => write_at (S off) data (<[off := x]> a)
  end.

Definition row_at (off n : nat) (a : list T) : list T :=
  map (get a) (seq off n).

Record state := State {
  hp : heap;
  om : buf;
  nm : buf;
  send_east : list T;
  send_west : list T;
  recv_east : list T;
  recv_west : list T;
  iter : Z;
  diff_norm : option T;      (* [None]: declared, not yet assigned *)
  log : list event;
}.

Section Run.
Variable a : args.
Variable w : world.

Local Abbreviation NB := (a_NB a).
Local Abbreviation MB := (a_MB a).

(** Lines 165-170: the column group ("ns") and the row group ("ew").  [%]
    and [/] of C truncate, as [Z.rem] and [Z.quot] do.  With P = 0 the C
    program is undefined at [rank % P] (a trap on the usual targets), while
    [Z.rem r 0 = r] and [Z.quot r 0 = 0]: the definitions follow the code
    for P <> 0 only. *)
Definition ns_comm : Z * Z := comm_split (a_size a) (fun r => Z.rem r (a_P a)) (a_rank a).
Definition ew_comm : Z * Z := comm_split (a_size a) (fun r => Z.quot r (a_P a)) (a_rank a).
Definition ns_size := fst ns_comm.
Definition ns_rank := snd ns_comm.
Definition ew_size := fst ew_comm.
Definition ew_rank := snd ew_comm.

Definition has_north : bool := negb (0 =? ns_rank)%Z.
Definition has_south : bool := negb (ns_size - 1 =? ns_rank)%Z.
Definition has_east : bool := negb (ew_size - 1 =? ew_rank)%Z.
Definition has_west : bool := negb (0 =? ew_rank)%Z.

(** Lines 154-170, the state in which the loop is entered.  The four
    scratch buffers come from malloc: the two send buffers are filled by the
    pack loop before they are read, so their first contents do not matter;
    the two receive buffers start with what the world put there. *)
Definition init : state :=
  State (Heap (Some (a_matrix a))
              (Some (replicate ((NB + 2) * (MB + 2)) (#0)%sc)))
        Matrix Fresh
        (replicate MB (#0)%sc) (replicate MB (#0)%sc)
        (resize MB (#0)%sc (w_malloc w East))
        (resize MB (#0)%sc (w_malloc w West))
        0 None
        [EvCommSplit (Z.rem (a_rank a) (a_P a)) (a_rank a);
         EvCommSplit (Z.quot (a_rank a) (a_P a)) (a_rank a)].

(** Lines 174-183. *)
Definition diagnostics (st : state) : list event :=
  (if (a_rank a =? 0)%Z
   then [EvPrint (iter st) (s_sqrt <$> diff_norm st) (a_epsilon a)] else []) ++
  (if a_save_output a then [EvPng (iter st) (om st)] else []).

(** Lines 200-203: the pack loop, on the pair (send_west, send_east). *)
Definition pack (o : list T) (sw se : list T) : list T * list T :=
  foldl (fun '(sw, se) i =>
           (<[i := get o ((i + 1) * (NB + 2) + 1)]> sw,
            <[i := get o ((i + 1) * (NB + 2) + NB + 0)]> se))
        (sw, se) (seq 0 MB).

(** Lines 212-215: the unpack loop. *)
Definition unpack (rw re : list T) (o : list T) : list T :=
  foldl (fun o i =>
           <[(i + 1) * (NB + 2) + NB + 1 := get re i]>
             (<[(i + 1) * (NB + 2) := get rw i]> o))
        o (seq 0 MB).

(** Lines 185-215.  Every message posted has arrived when [MPI_Waitall]
    returns; the regions received into are disjoint from the ones sent
    from, so the receives are applied at that point.  [recv_east] and
    [recv_west] are written only when the neighbour exists, and unpacked
    in every case. *)
Definition received (st : state) (d : dir) (n : nat) : list T :=
  take n (w_recv w (iter st) d).

Definition recv_east' (st : state) : list T :=
  if has_east then write_at 0 (received st East MB) (recv_east st) else recv_east st.

Definition recv_west' (st : state) : list T :=
  if has_west then write_at 0 (received st West MB) (recv_west st) else recv_west st.

(** The block under [om] once the exchange is over. *)
Definition haloed (st : state) : list T :=
  let o := load (hp st) (om st) in
  let o := if has_north then write_at (RECV_NORTH NB MB) (received st North NB) o else o in
  let o := if has_south then write_at (RECV_SOUTH NB MB) (received st South NB) o else o in
  unpack (recv_west' st) (recv_east' st) o.

Definition halo_events (st : state) (sw se : list T) : list event :=
  (if has_north then [EvIrecv North (ns_rank - 1) NB] else []) ++
  (if has_south then [EvIrecv South (ns_rank + 1) NB] else []) ++
  (if has_east then [EvIrecv East (ew_rank + 1) MB] else []) ++
  (if has_west then [EvIrecv West (ew_rank - 1) MB] else []) ++
  (if has_north
   then [EvIsend North (ns_rank - 1)
           (row_at (SEND_NORTH NB MB) NB (load (hp st) (om st)))] else []) ++
  (if has_south
   then [EvIsend South (ns_rank + 1)
           (row_at (SEND_SOUTH NB MB) NB (load (hp st) (om st)))] else []) ++
  (if has_east then [EvIsend East (ew_rank + 1) se] else []) ++
  (if has_west then [EvIsend West (ew_rank - 1) sw] else []) ++
  [EvWaitall].

Definition halo_exchange (st : state) : state :=
  let ws := pack (load (hp st) (om st)) (send_west st) (send_east st) in
  State (store (hp st) (om st) (haloed st)) (om st) (nm st)
        ws.2 ws.1 (recv_east' st) (recv_west' st)
        (iter st) (diff_norm st)
        (log st ++ halo_events st ws.1 ws.2).

(** Lines 220-222: [diff_norm = SOR1(nm, om, NB, MB)], then the reduction. *)
Definition relax (st : state) : state :=
  let res := SOR1 (load (hp st) (nm st)) (load (hp st) (om st)) NB MB in
  State (store (hp st) (nm st) res.1) (om st) (nm st)
        (send_east st) (send_west st) (recv_east st) (recv_west st)
        (iter st) (Some (w_allreduce w (iter st) res.2))
        (log st ++ [EvAllreduce res.2]).

(** Lines 224-227. *)
Definition swap (st : state) : state :=
  State (hp st) (nm st) (om st)
        (send_east st) (send_west st) (recv_east st) (recv_west st)
        (iter st + 1)%Z (diff_norm st) (log st).

Definition with_log (st : state) (l : list event) : state :=
  State (hp st) (om st) (nm st)
        (send_east st) (send_west st) (recv_east st) (recv_west st)
        (iter st) (diff_norm st) (log st ++ l).

(** The body of the do-while loop. *)
Definition iteration (st : state) : state :=
  swap (relax (halo_exchange (with_log st (diagnostics st)))).

(** [do { ... } while (iter < max_iter);] *)
Fixpoint do_while (fuel : nat) (st : state) : option state :=
  match fuel with
  | O => None
  | S fuel =>
      let st := iteration st in
      if (iter st <? a_max_iter a)%Z then do_while fuel st else Some st
  end.

(** Lines 230-243: the timings, then [if (matrix != om) free(om); else
    free(nm);].  The frees of the four scratch buffers are left out. *)
Definition finish (st : state) : state :=
  let p := if decide (Matrix <> om st) then om st else nm st in
  State (free (hp st) p) (om st) (nm st)
        (send_east st) (send_west st) (recv_east st) (recv_west st)
        (iter st) (diff_norm st)
        (log st ++ [EvTimings; EvFree p; EvCommFree; EvCommFree]).

(** The state in which the loop is left. *)
Definition loop_exit (fuel : nat) : option state := do_while fuel init.

(** [jacobi_cpu]: the value returned and the final state. *)
Definition jacobi_cpu (fuel : nat) : option (Z * state) :=
  st ← loop_exit fuel; Some (iter st, finish st).

End Run.

(** The final iterate: what the last executed stencil pass produced, which
    the swap leaves under [om]. *)
Definition final_iterate (st : state) : list T := load (hp st) (om st).

(** The number of turns the loop takes from [st]: at least one. *)
Definition turns (a : args) (st : state) : nat :=
  Z.to_nat (Z.max 1 (a_max_iter a - iter st)).

(** A grid of (nb+2)*(mb+2) cells with one value on the interior cells and
    another on the ghost border. *)
Definition uniform_field (nb mb : nat) (inner outer : T) : list T :=
  concat (map (fun j =>
            map (fun i => if (0 <? i) && (i <=? nb) && (0 <? j) && (j <=? mb)
                          then inner else outer)
                (seq 0 (nb + 2)))
          (seq 0 (mb + 2))).

(** The events that post a receive, a send or a collective operation. *)
Definition is_comm (e : event) : bool :=
  match e with
  | EvCommSplit _ _ | EvIrecv _ _ _ | EvIsend _ _ _ | EvWaitall
  | EvAllreduce _ | EvTimings | EvCommFree => true
  | EvPrint _ _ _ | EvPng _ _ | EvFree _ => false
  end.

End Driver.

Arguments heap T : clear implicits.
Arguments event T : clear implicits.
Arguments args T : clear implicits.
Arguments world T : clear implicits.
Arguments state T : clear implicits.

(** ** Concrete runs, in binary64 *)

Section Runs.
Import PrimFloat.

(** A world with nothing in it: fresh memory reads 0.0, no message carries
    data, and the reduction returns the local value (one process). *)
Definition still_world : world float :=
  World (fun _ => []) (fun _ _ => []) (fun _ x => x).

(** A world with neighbours: every message carries the value 2, and the
    other processes add 1 to the global sum. *)
Definition crowded_world : world float :=
  World (fun _ => []) (fun _ _ => [2%float; 2%float; 2%float; 2%float])
        (fun _ x => PrimFloat.add x 1%float).

(** NB = MB = 4 on one process (P = Q = 1), interior 0, border 10,
    max_iter = 1. *)
Definition run_4x4 : args float :=
  Args (uniform_field 4 4 0%float 10%float) 4 4 1 1 0 1 0%float 1 false.

(** NB = MB = 1 on one process, interior 1, border 0. *)
Definition run_1x1 (max_iter : Z) : args float :=
  Args (uniform_field 1 1 1%float 0%float) 1 1 1 1 0 1 0%float max_iter false.

(** Rank 0 of three processes on a grid two processes wide. *)
Definition run_3_by_2 : args float :=
  Args (uniform_field 1 1 1%float 0%float) 1 1 2 2 0 3 0%float 1 false.

(** Two processes side by side (P = 2, Q = 1), NB = 2, MB = 1, interior 3
    on rank 0 and 5 on rank 1, border 0. *)
Definition run_pair (rank : Z) : args float :=
  Args (uniform_field 2 1 (if (rank =? 0)%Z then 3%float else 5%float) 0%float)
       2 1 2 1 rank 2 0%float 1 false.

(** The world of rank 1 of the pair: from the west comes what rank 0 sends
    east, its last interior column. *)
Definition pair_world : world float :=
  World (fun _ => []) (fun _ d => match d with West => [3%float] | _ => [] end)
        (fun _ x => x).

(** Rank 4 of six processes in two rows of three, on rank 0's terms
    otherwise. *)
Definition run_2x3_rank_4 : args float :=
  Args (uniform_field 1 1 1%float 0%float) 1 1 3 2 4 6 0%float 2 true.

End Runs.

(** ** The frame exporter *)

(** What [create_png] needs besides the arithmetic: the comparison [<] and
    the conversion [(int)x], which truncates towards zero. *)
Class Shade (T : Type) := {
  s_ltb : T -> T -> bool;
  s_to_int : T -> Z;
}.

(** [(int)x] for a binary64 [x].  The C conversion is undefined for NaN,
    the infinities and values outside the range of [int]; NaN and the
    infinities give 0 here. *)
Definition float_to_Z (x : PrimFloat.float) : Z :=
  match FloatOps.Prim2SF x with
  | SpecFloat.S754_finite s m e =>
      let a := if (0 <=? e)%Z then (Z.pos m * 2 ^ e)%Z
               else Z.shiftr (Z.pos m) (- e) in
      if s then (- a)%Z else a
  | _ => 0%Z
  end.

#[export] Instance float_shade : Shade PrimFloat.float := {|
  s_ltb := PrimFloat.ltb;
  s_to_int := float_to_Z;
|}.

Section Png.
Context {T : Type} `{Scalar T} `{Shade T}.

(** Lines 65-71: the colour of one cell, as the three [int]s r, g, b. *)
Definition shade (value : T) : Z * Z * Z :=
  let normalized := ((value + #20) / #(20 + 20))%sc in
  let normalized :=
    if s_ltb normalized (#0)%sc then (#0)%sc
    else if s_ltb (#1)%sc normalized then (#1)%sc else normalized in
  let r := s_to_int (normalized * #255)%sc in
  (r, 0, 255 - r)%Z.

(** The three bytes stored for one cell: an [int] assigned to a [png_byte]
    is taken modulo 256. *)
Definition pixel (value : T) : list Z :=
  let '(r, g, b) := shade value in [r mod 256; g mod 256; b mod 256]%Z.

(** Lines 62-76: the inner loop fills [row_pointers[j]], a block of 3*nb
    bytes that malloc returned. *)
Definition png_row (matrix : list T) (nb j : nat) (row : list Z) : list Z :=
  foldl (fun row i =>
           let pos := (j + 1) * (nb + 2) + 1 + i in
           let '(r, g, b) := shade (get matrix pos) in
           <[i * 3 + 2 := (b mod 256)%Z]>
             (<[i * 3 + 1 := (g mod 256)%Z]>
                (<[i * 3 + 0 := (r mod 256)%Z]> row)))
        row (seq 0 nb).

(** Lines 60-77: the rows handed to [png_set_rows]; [fresh j] is what the
    block for row [j] holds when malloc returns it. *)
Definition png_rows (matrix : list T) (nb mb : nat) (fresh : nat -> list Z)
    : list (list Z) :=
  map (fun j => png_row matrix nb j (resize (3 * nb) 0%Z (fresh j))) (seq 0 mb).

End Png.

(** ** The process grid *)

(** The members of the communicator [MPI_Comm_split] builds for the caller,
    as ranks of [comm] in the order of their new ranks; [comm_split] gives
    the length of this list and the caller's position in it. *)
Definition comm_group (size : Z) (color : Z -> Z) (rank : Z) : list Z :=
  filter (fun r => color r = color rank) (seqZ 0 size).

(** ** Reading the log *)

Section Log.
Context {T : Type} `{Scalar T}.

Definition is_irecv (e : event T) : bool :=
  match e with EvIrecv _ _ _ => true | _ => false end.
Definition is_isend (e : event T) : bool :=
  match e with EvIsend _ _ _ => true | _ => false end.
Definition is_waitall (e : event T) : bool :=
  match e with EvWaitall => true | _ => false end.
Definition is_allreduce (e : event T) : bool :=
  match e with EvAllreduce _ => true | _ => false end.
Definition is_print (e : event T) : bool :=
  match e with EvPrint _ _ _ => true | _ => false end.
Definition is_png (e : event T) : bool :=
  match e with EvPng _ _ => true | _ => false end.

Definition count (f : event T -> bool) (l : list (event T)) : nat :=
  length (filter (fun e => f e = true) l).

(** Receives and sends by direction. *)
Definition same_dir (d1 d2 : dir) : bool :=
  match d1, d2 with
  | North, North | South, South | East, East | West, West => true
  | _, _ => false
  end.
Definition is_irecv_from (d : dir) (e : event T) : bool :=
  match e with EvIrecv d' _ _ => same_dir d' d | _ => false end.
Definition is_isend_to (d : dir) (e : event T) : bool :=
  match e with EvIsend d' _ _ => same_dir d' d | _ => false end.

(** The guards of lines 186-207, by direction. *)
Definition has_neighbour (a : args T) (d : dir) : bool :=
  match d with
  | North => has_north a
  | South => has_south a
  | East => has_east a
  | West => has_west a
  end.

(** The number of directions in which the process has a neighbour. *)
Definition neighbours (a : args T) : nat :=
  (if has_north a then 1 else 0) + (if has_south a then 1 else 0) +
  (if has_east a then 1 else 0) + (if has_west a then 1 else 0).

(** What one turn of the loop, started in [st], appends to the log. *)
Definition turn_log (a : args T) (w : world T) (st : state T) : list (event T) :=
  let ws := pack a (load (hp st) (om st)) (send_west st) (send_east st) in
  let st1 := halo_exchange a w (with_log st (diagnostics a st)) in
  diagnostics a st ++ halo_events a st ws.1 ws.2 ++
  [EvAllreduce
     (SOR1 (load (hp st1) (nm st1)) (load (hp st1) (om st1)) (a_NB a) (a_MB a)).2].

End Log.

(** ** Signs in binary64 *)

(** A binary64 value, in the representation of the floating-point
    specification, that is not below zero: a NaN, or a zero, a finite number
    or an infinity with the sign bit clear. *)
Definition not_negative (f : SpecFloat.spec_float) : Prop :=
  match f with
  | SpecFloat.S754_nan => True
  | SpecFloat.S754_zero s
  | SpecFloat.S754_infinity s
  | SpecFloat.S754_finite s _ _ => s = false
  end.

(** ** Facts about the stencil pass *)

Section StencilFacts.
Context {T : Type} `{Scalar T}.
Implicit Types (nm om : list T) (ps : list nat).

Lemma get_insert_eq nm k v : k < length nm -> get (<[k := v]> nm) k = v.
Proof. intros Hk. unfold get. by rewrite list_lookup_insert_eq. Qed.

Lemma get_insert_ne nm k q v : k <> q -> get (<[k := v]> nm) q = get nm q.
Proof. intros Hk. unfold get. by rewrite list_lookup_insert_ne. Qed.

Lemma get_ext nm1 nm2 q : nm1 !! q = nm2 !! q -> get nm1 q = get nm2 q.
Proof. unfold get. by intros ->. Qed.

Lemma foldl_map_list {A B C} (f : A -> B -> A) (g : C -> B) (x : A) (l : list C) :
  foldl f x (map g l) = foldl (fun x c => f x (g c)) x l.
Proof. revert x. induction l as [|c l IH]; intros x; simpl; [done | apply IH]. Qed.

Lemma foldl_concat_list {A B} (f : A -> B -> A) (x : A) (ls : list (list B)) :
  foldl f x (concat ls) = foldl (fun x l => foldl f x l) x ls.
Proof.
  revert x. induction ls as [|l ls IH]; intros x; simpl; [done |].
  by rewrite foldl_app, IH.
Qed.

Lemma foldl_ext_list {A B} (f g : A -> B -> A) (x : A) (l : list B) :
  (forall x b, f x b = g x b) -> foldl f x l = foldl g x l.
Proof.
  intros Hfg. revert x. induction l as [|b l IH]; intros x; simpl; [done |].
  by rewrite Hfg, IH.
Qed.

(** The nested loops visit the interior positions one after the other. *)
Lemma SOR1_sweep nm om nb mb :
  SOR1 nm om nb mb =
  foldl (SOR1_at (relax_W nb) om nb) (nm, (#0)%sc) (interior nb mb).
Proof.
  unfold SOR1, interior. rewrite foldl_concat_list, foldl_map_list.
  apply foldl_ext_list. intros acc j. unfold SOR1_row.
  by rewrite foldl_map_list.
Qed.

Lemma sweep_length W om nb ps nm r :
  length (foldl (SOR1_at W om nb) (nm, r) ps).1 = length nm.
Proof.
  revert nm r. induction ps as [|p ps IH]; intros nm r; simpl; [done |].
  rewrite IH. apply length_insert.
Qed.

Lemma sweep_other W om nb ps nm r q :
  q ∉ ps -> (foldl (SOR1_at W om nb) (nm, r) ps).1 !! q = nm !! q.
Proof.
  revert nm r. induction ps as [|p ps IH]; intros nm r Hq; simpl; [done |].
  apply not_elem_of_cons in Hq as [Hne Hq].
  rewrite IH by done. by apply list_lookup_insert_ne.
Qed.

(** A sweep over increasing positions: what is stored at a position is
    never touched again, nor are the cells west and north of it. *)
Lemma sweep_sorted W om nb ps :
  StronglySorted lt ps ->
  forall nm r,
    (forall p, p ∈ ps -> 0 < p < length nm) ->
    let res := foldl (SOR1_at W om nb) (nm, r) ps in
    (forall p, p ∈ ps -> get res.1 p = stencil W res.1 om nb p) /\
    res.2 = foldl (fun r p => (r + sqdiff res.1 om p)%sc) r ps.
Proof.
  induction 1 as [|p ps Hs IH Hall]; intros nm r Hin; simpl.
  { split; [intros p Hp; by apply elem_of_nil in Hp | done]. }
  rewrite Forall_forall in Hall.
  set (nmB := <[p := stencil W nm om nb p]> nm).
  set (rB := (r + (get nmB p - get om p) * (get nmB p - get om p))%sc).
  assert (Hp : 0 < p < length nm) by (apply Hin; left).
  destruct (IH nmB rB) as [IHv IHr].
  { intros q Hq. unfold nmB. rewrite length_insert. apply Hin. by right. }
  set (res := foldl (SOR1_at W om nb) (nmB, rB) ps) in *.
  assert (Hfar : forall q, q <= p -> res.1 !! q = nmB !! q).
  { intros q Hq. apply sweep_other. intros Hel. apply Hall in Hel. lia. }
  assert (Hhere : get res.1 p = stencil W res.1 om nb p).
  { rewrite (get_ext _ _ _ (Hfar p (le_n _))). unfold nmB.
    rewrite get_insert_eq by lia. unfold stencil.
    rewrite (get_ext res.1 nmB (p - 1)) by (apply Hfar; lia).
    rewrite (get_ext res.1 nmB (p - (nb + 2))) by (apply Hfar; lia).
    unfold nmB. by rewrite !get_insert_ne by lia. }
  split.
  - intros q [-> | Hq]%elem_of_cons; [done | by apply IHv].
  - rewrite IHr. f_equal. unfold rB, sqdiff.
    by rewrite (get_ext res.1 nmB p) by (apply Hfar; lia).
Qed.

Lemma divmod_unique (n a x b y : nat) :
  a < n -> b < n -> a + x * n = b + y * n -> a = b /\ x = y.
Proof.
  intros Ha Hb Heq. assert (x = y) as ->; [| lia].
  destruct (lt_eq_lt_dec x y) as [[Hlt | ->] | Hgt]; [| done |].
  - assert (x * n + n <= y * n) by nia. lia.
  - assert (y * n + n <= x * n) by nia. lia.
Qed.

Lemma interior_elem nb mb p :
  p ∈ interior nb mb <-> exists i j, i < nb /\ j < mb /\ p = idx nb i j.
Proof.
  unfold interior. rewrite list_elem_of_In, in_concat. split.
  - intros (l & Hl & Hp). apply in_map_iff in Hl as (j & <- & Hj).
    apply in_map_iff in Hp as (i & <- & Hi).
    apply in_seq in Hi, Hj. exists i, j. lia.
  - intros (i & j & Hi & Hj & ->).
    exists (map (fun i => idx nb i j) (seq 0 nb)). split.
    + apply in_map_iff. exists j. split; [done |]. apply in_seq. lia.
    + apply in_map_iff. exists i. split; [done |]. apply in_seq. lia.
Qed.

Lemma interior_bounds nb mb p :
  p ∈ interior nb mb -> nb + 2 < p /\ p + (nb + 2) < (nb + 2) * (mb + 2).
Proof.
  intros (i & j & Hi & Hj & ->)%interior_elem. unfold idx. nia.
Qed.

Lemma sorted_app_lt (l1 l2 : list nat) :
  StronglySorted lt l1 -> StronglySorted lt l2 ->
  (forall x y, x ∈ l1 -> y ∈ l2 -> x < y) ->
  StronglySorted lt (l1 ++ l2).
Proof.
  induction 1 as [|x l1 Hs IH Hall]; intros H2 Hlt; simpl; [done |].
  constructor.
  - apply IH; [done |]. intros a b Ha Hb. apply Hlt; [by right | done].
  - apply Forall_app. split; [done |].
    apply Forall_forall. intros y Hy. apply Hlt; [left | done].
Qed.

Lemma row_sorted nb j s n :
  StronglySorted lt (map (fun i => idx nb i j) (seq s n)).
Proof.
  revert s. induction n as [|n IH]; intros s; simpl; constructor; [apply IH |].
  apply Forall_forall. intros y Hy.
  apply list_elem_of_In, in_map_iff in Hy as (i & <- & Hi).
  apply in_seq in Hi. unfold idx. lia.
Qed.

Lemma rows_sorted nb s n :
  StronglySorted lt
    (concat (map (fun j => map (fun i => idx nb i j) (seq 0 nb)) (seq s n))).
Proof.
  revert s. induction n as [|n IH]; intros s; simpl; [constructor |].
  apply sorted_app_lt; [apply row_sorted | apply IH |].
  intros x y Hx Hy.
  apply list_elem_of_In, in_map_iff in Hx as (i & <- & Hi).
  apply list_elem_of_In, in_concat in Hy as (l & Hl & Hy).
  apply in_map_iff in Hl as (j & <- & Hj).
  apply in_map_iff in Hy as (i' & <- & Hi').
  apply in_seq in Hi, Hj, Hi'. unfold idx. nia.
Qed.

Lemma interior_sorted nb mb : StronglySorted lt (interior nb mb).
Proof. apply rows_sorted. Qed.

Lemma interior_length nb mb : length (interior nb mb) = nb * mb.
Proof.
  unfold interior. generalize 0 at 2. induction mb as [|mb IH]; intros s; simpl.
  - lia.
  - rewrite length_app, length_map, length_seq, IH. lia.
Qed.

Lemma sorted_lt_NoDup (l : list nat) : StronglySorted lt l -> NoDup l.
Proof.
  induction 1 as [|x l Hs IH Hall]; constructor; [| done].
  rewrite Forall_forall in Hall. intros Hx. apply Hall in Hx. lia.
Qed.

End StencilFacts.

(** ** The stencil pass: value, metric, frame *)

Section StencilClaims.
Context {T : Type} `{Scalar T}.
Implicit Types (nm om : list T).

(** The buffer the pass leaves solves the stencil equation at every
    interior position. *)
Lemma SOR1_stencil_eq nm om nb mb pos :
  length nm = (nb + 2) * (mb + 2) ->
  pos ∈ interior nb mb ->
  get (SOR1 nm om nb mb).1 pos = stencil (relax_W nb) (SOR1 nm om nb mb).1 om nb pos.
Proof.
  intros Hlen Hpos. rewrite SOR1_sweep.
  destruct (sweep_sorted (relax_W nb) om nb (interior nb mb)
              (interior_sorted nb mb) nm (#0)%sc) as [Hv _]; [| by apply Hv].
  intros p Hp%interior_bounds. rewrite Hlen. lia.
Qed.

Lemma SOR1_ghost nm om nb mb q :
  q ∉ interior nb mb -> (SOR1 nm om nb mb).1 !! q = nm !! q.
Proof. intros Hq. rewrite SOR1_sweep. by apply sweep_other. Qed.

(** West of the first column and north of the first row lie ghost cells. *)
Lemma west_of_first_column nb mb j : idx nb 0 j - 1 ∉ interior nb mb.
Proof.
  intros (i' & j' & Hi' & Hj' & Heq)%interior_elem. unfold idx in Heq.
  destruct (divmod_unique (nb + 2) 0 (j + 1) (1 + i') (j' + 1)); lia.
Qed.

Lemma north_of_first_row nb mb i : i < nb -> idx nb i 0 - (nb + 2) ∉ interior nb mb.
Proof.
  intros Hi (i' & j' & Hi' & Hj' & Heq)%interior_elem. unfold idx in Heq.
  destruct (divmod_unique (nb + 2) (1 + i) 0 (1 + i') (j' + 1)); lia.
Qed.

(** C1.  After one pass [SOR1(nm, om, NB, MB)] over buffers of
    (NB+2)*(MB+2) cells, every interior cell (i,j) of the destination holds
    (1-W)*om[pos] + (W/4)*(nm[pos-1] + om[pos+1] + nm[pos-(NB+2)] +
    om[pos+(NB+2)]) with pos = 1+i+(j+1)*(NB+2) and W = 2/(1 + pi/NB): the
    west and north operands are read from the destination buffer, which the
    row-major sweep has already updated there (or the destination's ghost
    cell on the first column and the first row), the east and south operands
    from the source buffer. *)
Theorem SOR1_interior_value nm om nb mb i j :
  length nm = (nb + 2) * (mb + 2) ->
  i < nb -> j < mb ->
  let nm' := (SOR1 nm om nb mb).1 in
  let pos := idx nb i j in
  let W : T := (#2 / (#1 + s_pi / s_of_int (Z.of_nat nb)))%sc in
  pos = 1 + i + (j + 1) * (nb + 2) /\
  get nm' pos =
    ((#1 - W) * get om pos +
     W / #4 * (get nm' (pos - 1) + get om (pos + 1) +
               get nm' (pos - (nb + 2)) + get om (pos + (nb + 2))))%sc /\
  (i = 0 -> get nm' (pos - 1) = get nm (pos - 1)) /\
  (j = 0 -> get nm' (pos - (nb + 2)) = get nm (pos - (nb + 2))) /\
  (0 < i -> pos - 1 = idx nb (i - 1) j) /\
  (0 < j -> pos - (nb + 2) = idx nb i (j - 1)).
Proof.
  intros Hlen Hi Hj nm' pos W.
  assert (Hpos : pos ∈ interior nb mb) by (apply interior_elem; eauto).
  split; [done |]. split; [by apply SOR1_stencil_eq |].
  repeat split.
  - intros ->. apply get_ext, SOR1_ghost, west_of_first_column.
  - intros ->. by apply get_ext, SOR1_ghost, north_of_first_row.
  - intros Hi0. subst pos. unfold idx. lia.
  - intros Hj0. subst pos. unfold idx. nia.
Qed.

(** C2 (amended).  The value [SOR1] returns is the sum, accumulated from 0.0
    in the order of the sweep, of (nm[pos]-om[pos])*(nm[pos]-om[pos]) over
    the interior positions with [nm] the destination after the pass; these
    are exactly the NB*MB positions 1+i+(j+1)*(NB+2), each once, none a
    ghost cell.  When the pass leaves every interior cell equal to the
    source cell, and every interior cell value [x] of the source has
    x - x = 0.0 (every finite number has; an infinity and a NaN have not),
    the value is 0.0 (with 0.0*0.0 = 0.0 + 0.0 = 0.0, which binary64
    has). *)
Theorem SOR1_returns_interior_sum nm om nb mb :
  length nm = (nb + 2) * (mb + 2) ->
  let res := SOR1 nm om nb mb in
  res.2 = foldl (fun r pos => (r + sqdiff res.1 om pos)%sc) (#0)%sc (interior nb mb) /\
  length (interior nb mb) = nb * mb /\
  NoDup (interior nb mb) /\
  (forall pos, pos ∈ interior nb mb <->
               exists i j, i < nb /\ j < mb /\ pos = 1 + i + (j + 1) * (nb + 2)) /\
  ((#0 + #0 = #0 :> T)%sc -> (#0 * #0 = #0 :> T)%sc ->
   (forall pos, pos ∈ interior nb mb -> (get om pos - get om pos = #0)%sc) ->
   (forall pos, pos ∈ interior nb mb -> get res.1 pos = get om pos) ->
   res.2 = (#0)%sc).
Proof.
  intros Hlen res.
  destruct (sweep_sorted (relax_W nb) om nb (interior nb mb)
              (interior_sorted nb mb) nm (#0)%sc) as [_ Hr].
  { intros p Hp%interior_bounds. rewrite Hlen. lia. }
  rewrite <- SOR1_sweep in Hr. fold res in Hr.
  split; [exact Hr |]. split; [apply interior_length |].
  split; [apply sorted_lt_NoDup, interior_sorted |].
  split; [apply interior_elem |].
  intros Hadd Hmul Hsub Hsame. rewrite Hr.
  assert (Hgen : forall ps, (forall p, p ∈ ps -> p ∈ interior nb mb) ->
            foldl (fun r pos => (r + sqdiff res.1 om pos)%sc) (#0)%sc ps = (#0)%sc).
  { induction ps as [|p ps IH] using rev_ind; intros Hps; [done |].
    rewrite foldl_app. simpl. rewrite IH.
    - unfold sqdiff. rewrite Hsame, Hsub, Hmul, Hadd; try done;
        apply Hps, elem_of_app; right; left.
    - intros q Hq. apply Hps, elem_of_app. by left. }
  by apply Hgen.
Qed.

End StencilClaims.

(** ** Rounding in binary64

    The floating-point specification of the standard library
    ([SpecFloat]), to which the primitive operations are tied by
    [FloatAxioms], is enough to follow the roundings of
    [_W = 2.0 / (1.0 + M_PI / (TYPE)nb)] and of the weights. *)

Section Rounding.
Import SpecFloat FloatOps.
Local Open Scope Z_scope.

Lemma Zdigits2_log2 (p : positive) : Zdigits2 (Z.pos p) = Z.log2 (Z.pos p) + 1.
Proof.
  assert (Hs : forall q, digits2_pos q = Pos.size q).
  { induction q as [q IH|q IH|]; simpl; by rewrite ?IH. }
  simpl. rewrite Hs. destruct p; simpl; lia.
Qed.

Lemma Zdigits2_bounds (p : positive) (d : Z) :
  Zdigits2 (Z.pos p) = d <-> 0 < d /\ 2 ^ (d - 1) <= Z.pos p < 2 ^ d.
Proof.
  rewrite Zdigits2_log2. split.
  - intros <-. pose proof (Z.log2_nonneg (Z.pos p)).
    pose proof (Z.log2_spec (Z.pos p) ltac:(lia)).
    replace (Z.log2 (Z.pos p) + 1 - 1) with (Z.log2 (Z.pos p)) by lia.
    replace (Z.log2 (Z.pos p) + 1) with (Z.succ (Z.log2 (Z.pos p))) by lia. lia.
  - intros [Hd Hb]. rewrite (Z.log2_unique (Z.pos p) (d - 1)); [lia | lia |].
    replace (Z.succ (d - 1)) with d by lia. done.
Qed.

Lemma Zdigits2_mul_pow2 (p : positive) (n : Z) :
  0 <= n -> Zdigits2 (Z.pos p * 2 ^ n) = Zdigits2 (Z.pos p) + n.
Proof.
  intros Hn. assert (Hpos : 0 < Z.pos p * 2 ^ n) by (apply Z.mul_pos_pos; lia).
  destruct (Z.pos p * 2 ^ n) as [|q|q] eqn:Hq; try lia.
  rewrite !Zdigits2_log2, <- Hq, Z.log2_mul_pow2; lia.
Qed.

Lemma iter_xO (m d : positive) : Z.pos (Pos.iter xO m d) = Z.pos m * 2 ^ Z.pos d.
Proof.
  induction d as [|d IH] using Pos.peano_ind.
  - simpl. lia.
  - rewrite Pos.iter_succ, Pos2Z.inj_xO, IH, Pos2Z.inj_succ, Z.pow_succ_r; lia.
Qed.

(** [shl_align] towards a smaller exponent keeps the value. *)
Lemma shl_align_le mx ex ex' :
  ex' <= ex ->
  Z.pos (shl_align mx ex ex').1 = Z.pos mx * 2 ^ (ex - ex') /\ (shl_align mx ex ex').2 = ex'.
Proof.
  intros Hle. unfold shl_align.
  destruct (ex' - ex) as [|d|d] eqn:Hd; try lia; simpl.
  - replace (ex - ex') with 0 by lia. split; lia.
  - rewrite iter_xO. replace (ex - ex') with (Z.pos d) by lia. done.
Qed.

Lemma shl_align_ge mx ex ex' : ex <= ex' -> shl_align mx ex ex' = (mx, ex).
Proof.
  intros Hle. unfold shl_align. destruct (ex' - ex) as [|d|d] eqn:Hd; try lia; done.
Qed.

Lemma shr_1_m mrs : 0 <= shr_m mrs -> shr_m (shr_1 mrs) = shr_m mrs / 2.
Proof.
  destruct mrs as [m r s]. simpl. intros Hm.
  destruct m as [|[p|p|]|p]; try lia; simpl; try done.
  - rewrite Pos2Z.inj_xI. apply (Z.div_unique _ _ _ 1); lia.
  - rewrite Pos2Z.inj_xO. apply (Z.div_unique _ _ _ 0); lia.
Qed.

Lemma iter_pos_shr_m (n : positive) mrs :
  0 <= shr_m mrs -> shr_m (iter_pos shr_1 n mrs) = shr_m mrs / 2 ^ Z.pos n.
Proof.
  revert mrs. induction n as [n IH|n IH|]; intros mrs Hm; cbn [iter_pos].
  - assert (H1 : 0 <= shr_m (shr_1 mrs)).
    { rewrite shr_1_m by done. apply Z.div_pos; lia. }
    assert (H2 : 0 <= shr_m (iter_pos shr_1 n (shr_1 mrs))).
    { rewrite IH by done. apply Z.div_pos; lia. }
    rewrite IH, IH, shr_1_m by done.
    rewrite !Z.div_div by lia. f_equal.
    rewrite Pos2Z.inj_xI, <- Z.pow_add_r, <- (Z.pow_1_r 2) at 1 by lia.
    rewrite <- Z.pow_add_r by lia. f_equal. lia.
  - assert (H2 : 0 <= shr_m (iter_pos shr_1 n mrs)).
    { rewrite IH by done. apply Z.div_pos; lia. }
    rewrite IH, IH by done. rewrite Z.div_div by lia. f_equal.
    rewrite Pos2Z.inj_xO, <- Z.pow_add_r by lia. f_equal. lia.
  - rewrite shr_1_m by done. done.
Qed.

(** Shifting out zero bits only is exact. *)
Lemma shr_1_exact k : 0 <= k ->
  shr_1 (Build_shr_record (k * 2) false false) = Build_shr_record k false false.
Proof.
  intros Hk. rewrite Z.mul_comm. destruct k as [|p|p]; try lia; done.
Qed.

Lemma iter_pos_shr_exact (n : positive) k :
  0 <= k ->
  iter_pos shr_1 n (Build_shr_record (k * 2 ^ Z.pos n) false false) =
    Build_shr_record k false false.
Proof.
  revert k. induction n as [n IH|n IH|]; intros k Hk; cbn [iter_pos].
  - replace (k * 2 ^ Z.pos n~1) with (k * 2 ^ Z.pos n * 2 ^ Z.pos n * 2).
    2:{ replace (Z.pos n~1) with (Z.pos n + Z.pos n + 1) by lia.
        rewrite !Z.pow_add_r by lia. lia. }
    rewrite shr_1_exact by nia. rewrite IH by nia. by rewrite IH.
  - replace (k * 2 ^ Z.pos n~0) with (k * 2 ^ Z.pos n * 2 ^ Z.pos n).
    2:{ replace (Z.pos n~0) with (Z.pos n + Z.pos n) by lia.
        rewrite !Z.pow_add_r by lia. lia. }
    rewrite IH by nia. by rewrite IH.
  - by rewrite shr_1_exact.
Qed.

(** A mantissa that is a canonical one times a power of two, given as
    exact, rounds to the canonical one. *)
Lemma binary_round_aux_exact s (m0 : positive) (e0 n : Z) :
  bounded prec emax m0 e0 = true -> 0 <= n ->
  binary_round_aux prec emax s (Z.pos m0 * 2 ^ n) (e0 - n) loc_Exact = S754_finite s m0 e0.
Proof.
  intros [Hcan Hle]%andb_prop Hn.
  unfold canonical_mantissa in Hcan. apply Z.eqb_eq in Hcan.
  change (Z.pos (digits2_pos m0)) with (Zdigits2 (Z.pos m0)) in Hcan.
  assert (Hshift : shr_fexp prec emax (Z.pos m0 * 2 ^ n) (e0 - n) loc_Exact =
                   (Build_shr_record (Z.pos m0) false false, e0)).
  { unfold shr_fexp. rewrite Zdigits2_mul_pow2 by done.
    replace (Zdigits2 (Z.pos m0) + n + (e0 - n)) with (Zdigits2 (Z.pos m0) + e0) by lia.
    rewrite Hcan. replace (e0 - (e0 - n)) with n by lia.
    unfold shr, shr_record_of_loc. destruct n as [|p|p]; try lia.
    - rewrite Z.mul_1_r. f_equal. lia.
    - rewrite iter_pos_shr_exact by lia. f_equal. lia. }
  assert (Hstay : shr_fexp prec emax (Z.pos m0) e0 loc_Exact =
                  (Build_shr_record (Z.pos m0) false false, e0)).
  { unfold shr_fexp. rewrite Hcan, Z.sub_diag. done. }
  unfold binary_round_aux. rewrite Hshift. cbn [shr_m loc_of_shr_record round_nearest_even].
  rewrite Hstay. cbn [shr_m]. by rewrite Hle.
Qed.

Lemma binary_round_up s (M m0 : positive) (e e0 : Z) :
  bounded prec emax m0 e0 = true -> e0 <= e ->
  Z.pos m0 = Z.pos M * 2 ^ (e - e0) ->
  binary_round prec emax s M e = S754_finite s m0 e0.
Proof.
  intros Hb Hle Hm. pose proof Hb as [Hcan _]%andb_prop.
  unfold canonical_mantissa in Hcan. apply Z.eqb_eq in Hcan.
  change (Z.pos (digits2_pos m0)) with (Zdigits2 (Z.pos m0)) in Hcan.
  unfold binary_round.
  change (Z.pos (digits2_pos M)) with (Zdigits2 (Z.pos M)).
  assert (Hd : Zdigits2 (Z.pos M) + e = Zdigits2 (Z.pos m0) + e0).
  { rewrite Hm, Zdigits2_mul_pow2 by lia. lia. }
  rewrite Hd, Hcan.
  destruct (shl_align_le M e e0 Hle) as [Hv He].
  destruct (shl_align M e e0) as [mz ez]. simpl in Hv, He. subst ez.
  assert (mz = m0) as -> by lia.
  pose proof (binary_round_aux_exact s m0 e0 0 Hb ltac:(lia)) as Hr.
  by rewrite Z.mul_1_r, Z.sub_0_r in Hr.
Qed.

Lemma binary_round_down s (M m0 : positive) (e e0 : Z) :
  bounded prec emax m0 e0 = true -> e <= e0 ->
  Z.pos M = Z.pos m0 * 2 ^ (e0 - e) ->
  binary_round prec emax s M e = S754_finite s m0 e0.
Proof.
  intros Hb Hle Hm. pose proof Hb as [Hcan _]%andb_prop.
  unfold canonical_mantissa in Hcan. apply Z.eqb_eq in Hcan.
  change (Z.pos (digits2_pos m0)) with (Zdigits2 (Z.pos m0)) in Hcan.
  unfold binary_round.
  change (Z.pos (digits2_pos M)) with (Zdigits2 (Z.pos M)).
  assert (Hd : Zdigits2 (Z.pos M) + e = Zdigits2 (Z.pos m0) + e0).
  { rewrite Hm, Zdigits2_mul_pow2 by lia. lia. }
  rewrite Hd, Hcan, shl_align_ge by done.
  pose proof (binary_round_aux_exact s m0 e0 (e0 - e) Hb ltac:(lia)) as Hr.
  by rewrite <- Hm, Z.sub_sub_distr, Z.sub_diag, Z.add_0_l in Hr.
Qed.

(** Bounded mantissas above the subnormal range have 53 digits. *)
Lemma bounded_digits (m : positive) (e : Z) :
  bounded prec emax m e = true -> emin < e -> Zdigits2 (Z.pos m) = 53.
Proof.
  intros [Hcan _]%andb_prop He. unfold canonical_mantissa in Hcan.
  apply Z.eqb_eq in Hcan. change (Z.pos (digits2_pos m)) with (Zdigits2 (Z.pos m)) in Hcan.
  unfold fexp, emin, prec, emax in *. lia.
Qed.

Lemma digits_bounded (m : positive) (e : Z) :
  Zdigits2 (Z.pos m) = 53 -> emin <= e <= emax - prec ->
  bounded prec emax m e = true.
Proof.
  intros Hd He. unfold bounded, canonical_mantissa.
  change (Z.pos (digits2_pos m)) with (Zdigits2 (Z.pos m)). rewrite Hd.
  apply andb_true_intro. split; [apply Z.eqb_eq | apply Z.leb_le].
  - unfold fexp, emin, prec, emax in *. lia.
  - lia.
Qed.

(** Rounding a mantissa of at most 53 digits normalises it. *)
Lemma binary_round_normal s (k : positive) (e : Z) :
  let j := 53 - Zdigits2 (Z.pos k) in
  0 <= j -> emin <= e - j -> e - j <= emax - prec ->
  exists m0, Z.pos m0 = Z.pos k * 2 ^ j /\ bounded prec emax m0 (e - j) = true /\
             binary_round prec emax s k e = S754_finite s m0 (e - j).
Proof.
  intros j Hj Hlo Hhi.
  assert (Hpos : 0 < Z.pos k * 2 ^ j) by (apply Z.mul_pos_pos; lia).
  destruct (Z.pos k * 2 ^ j) as [|m0|m0] eqn:Hm0; try lia.
  exists m0. split; [done |].
  assert (Hb : bounded prec emax m0 (e - j) = true).
  { apply digits_bounded; [| lia]. rewrite <- Hm0, Zdigits2_mul_pow2 by done. lia. }
  split; [done |]. apply binary_round_up; [done | lia |].
  rewrite <- Hm0. f_equal. f_equal. lia.
Qed.

Lemma SFadd_finite sx mx ex sy my ey :
  SFadd prec emax (S754_finite sx mx ex) (S754_finite sy my ey) =
    let ez := Z.min ex ey in
    binary_normalize prec emax
      (cond_Zopp sx (Z.pos mx * 2 ^ (ex - ez)) + cond_Zopp sy (Z.pos my * 2 ^ (ey - ez)))
      ez false.
Proof.
  cbn [SFadd]. cbv zeta.
  destruct (shl_align_le mx ex (Z.min ex ey) ltac:(lia)) as [-> _].
  destruct (shl_align_le my ey (Z.min ex ey) ltac:(lia)) as [-> _]. done.
Qed.

Lemma SFsub_finite sx mx ex sy my ey :
  SFsub prec emax (S754_finite sx mx ex) (S754_finite sy my ey) =
    let ez := Z.min ex ey in
    binary_normalize prec emax
      (cond_Zopp sx (Z.pos mx * 2 ^ (ex - ez)) - cond_Zopp sy (Z.pos my * 2 ^ (ey - ez)))
      ez false.
Proof.
  cbn [SFsub]. cbv zeta.
  destruct (shl_align_le mx ex (Z.min ex ey) ltac:(lia)) as [-> _].
  destruct (shl_align_le my ey (Z.min ex ey) ltac:(lia)) as [-> _]. done.
Qed.

Lemma div_eucl_pair a b : Z.div_eucl a b = (a / b, a mod b).
Proof. unfold Z.div, Z.modulo. by destruct (Z.div_eucl a b). Qed.

(** The quotient of two normal numbers: 53 more bits of the dividend, then
    one rounding. *)
Lemma SFdiv_finite sx mx ex sy my ey :
  Zdigits2 (Z.pos mx) = 53 -> Zdigits2 (Z.pos my) = 53 ->
  emin <= ex - ey - 53 ->
  SFdiv prec emax (S754_finite sx mx ex) (S754_finite sy my ey) =
    binary_round_aux prec emax (xorb sx sy)
      (Z.pos mx * 2 ^ 53 / Z.pos my) (ex - ey - 53)
      (new_location (Z.pos my) ((Z.pos mx * 2 ^ 53) mod Z.pos my)).
Proof.
  intros Hdx Hdy He. cbn [SFdiv]. unfold SFdiv_core_binary. rewrite Hdx, Hdy.
  replace (Z.min (fexp prec emax (53 + ex - (53 + ey))) (ex - ey)) with (ex - ey - 53).
  2:{ unfold fexp, emin, prec, emax in *. lia. }
  replace (ex - ey - (ex - ey - 53)) with 53 by lia. cbv zeta iota.
  rewrite Z.shiftl_mul_pow2 by lia. by rewrite div_eucl_pair.
Qed.

Lemma round_nearest_even_bounds m l : m <= round_nearest_even m l <= m + 1.
Proof. destruct l as [|[| |]]; simpl; try lia. destruct (Z.even m); lia. Qed.

(** The shape of a rounded result: a mantissa of [d >= 53] digits at exponent
    [e] rounds to a normal number of exponent [e + d - 53], or to the power
    of two above. *)
Lemma binary_round_aux_shape s (m : positive) (e : Z) l :
  let d := Zdigits2 (Z.pos m) in
  let E := e + d - 53 in
  53 <= d -> emin <= E -> E + 1 <= emax - prec ->
  (exists m', Zdigits2 (Z.pos m') = 53 /\
              binary_round_aux prec emax s (Z.pos m) e l = S754_finite s m' E) \/
  binary_round_aux prec emax s (Z.pos m) e l = S754_finite s 4503599627370496 (E + 1).
Proof.
  intros d E Hd Hlo Hhi.
  destruct (Zdigits2_bounds m d) as [Hb _]. specialize (Hb eq_refl) as [_ Hb].
  set (n := d - 53) in *.
  assert (Hpow1 : 2 ^ (d - 1) = 4503599627370496 * 2 ^ n).
  { replace (d - 1) with (52 + n) by lia. by rewrite Z.pow_add_r by lia. }
  assert (Hpow2 : 2 ^ d = 9007199254740992 * 2 ^ n).
  { replace d with (53 + n) at 1 by lia. by rewrite Z.pow_add_r by lia. }
  assert (Hn : 0 < 2 ^ n) by (apply Z.pow_pos_nonneg; lia).
  assert (Hm1 : 4503599627370496 <= Z.pos m / 2 ^ n < 9007199254740992).
  { split; [apply Z.div_le_lower_bound | apply Z.div_lt_upper_bound]; lia. }
  assert (Hshift : exists mrs, shr_fexp prec emax (Z.pos m) e l = (mrs, E) /\
                               shr_m mrs = Z.pos m / 2 ^ n).
  { unfold shr_fexp. fold d.
    replace (fexp prec emax (d + e) - e) with n.
    2:{ unfold fexp, emin, prec, emax in *. lia. }
    unfold shr. destruct n as [|p|p] eqn:Hp; try lia.
    - eexists. split; [f_equal; lia |]. rewrite Z.div_1_r. by destruct l as [|[| |]].
    - eexists. split; [f_equal; lia |]. rewrite iter_pos_shr_m; [| by destruct l as [|[| |]]].
      f_equal. by destruct l as [|[| |]]. }
  destruct Hshift as (mrs & Hshift & Hmrs).
  unfold binary_round_aux. rewrite Hshift.
  pose proof (round_nearest_even_bounds (shr_m mrs) (loc_of_shr_record mrs)) as Hr.
  destruct (round_nearest_even (shr_m mrs) (loc_of_shr_record mrs)) as [|m2|m2] eqn:Hm2;
    rewrite Hmrs in Hr; try lia.
  destruct (Z.eq_dec (Z.pos m2) 9007199254740992) as [Htop | Hlow].
  - right. injection Htop as ->.
    unfold shr_fexp. change (Zdigits2 9007199254740992) with 54.
    replace (fexp prec emax (54 + E) - E) with 1.
    2:{ unfold fexp, emin, prec, emax in *. lia. }
    cbn [shr shr_record_of_loc iter_pos shr_1 shr_m].
    replace (E + 1 <=? emax - prec) with true; [done |]. symmetry. by apply Z.leb_le.
  - left. exists m2.
    assert (Hd2 : Zdigits2 (Z.pos m2) = 53) by (apply Zdigits2_bounds; simpl; lia).
    split; [done |].
    unfold shr_fexp. rewrite Hd2.
    replace (fexp prec emax (53 + E) - E) with 0.
    2:{ unfold fexp, emin, prec, emax in *. lia. }
    cbn [shr shr_record_of_loc shr_m].
    replace (E <=? emax - prec) with true; [done |]. symmetry. apply Z.leb_le. lia.
Qed.

End Rounding.

Section Weights.
Import PrimFloat SpecFloat FloatOps FloatAxioms.
Local Open Scope Z_scope.

Lemma Prim2SF_inj (x y : float) : Prim2SF x = Prim2SF y -> x = y.
Proof. intros Heq. by rewrite <- (SF2Prim_Prim2SF x), Heq, SF2Prim_Prim2SF. Qed.

(** Dividing a number of [1/2, 2) by 4 and multiplying by 4 again is exact. *)
Lemma quarter_exact (w : float) m e :
  Prim2SF w = S754_finite false m e -> -53 <= e <= -51 ->
  (4 * (w / 4))%float = w.
Proof.
  intros Hw He. pose proof (Prim2SF_valid w) as Hv. rewrite Hw in Hv.
  cbn [valid_binary] in Hv.
  assert (Hd : Zdigits2 (Z.pos m) = 53).
  { apply (bounded_digits m e Hv). unfold emin, prec, emax. lia. }
  apply Prim2SF_inj. rewrite mul_spec, div_spec, Hw.
  change (Prim2SF 4) with (S754_finite false 4503599627370496 (-50)).
  unfold SF64div, SF64mul. rewrite SFdiv_finite; [| done | done | unfold emin, prec, emax; lia].
  replace (Z.pos m * 2 ^ 53 / 4503599627370496) with (Z.pos m * 2 ^ 1).
  2:{ apply (Z.div_unique _ _ _ 0); lia. }
  replace ((Z.pos m * 2 ^ 53) mod 4503599627370496) with 0.
  2:{ apply (Z.mod_unique _ _ (Z.pos m * 2)); lia. }
  change (new_location 4503599627370496 0) with loc_Exact.
  replace (e - -50 - 53) with (e - 2 - 1) by lia.
  rewrite binary_round_aux_exact; [| | lia].
  2:{ apply digits_bounded; [done | unfold emin, prec, emax; lia]. }
  cbn [SFmul xorb].
  replace (Z.pos (4503599627370496 * m)) with (Z.pos m * 2 ^ 52) by lia.
  replace (-50 + (e - 2)) with (e - 52) by lia.
  by rewrite binary_round_aux_exact; [| | lia].
Qed.

(** For [w] in [1/2, 2) the difference 1 - w is computed without rounding
    error, so adding [w] back gives 1. *)
Lemma one_minus_plus (w : float) m e :
  Prim2SF w = S754_finite false m e -> -53 <= e <= -52 ->
  ((1 - w) + w)%float = 1%float.
Proof.
  intros Hw He. pose proof (Prim2SF_valid w) as Hv. rewrite Hw in Hv.
  cbn [valid_binary] in Hv.
  assert (Hd : Zdigits2 (Z.pos m) = 53).
  { apply (bounded_digits m e Hv). unfold emin, prec, emax. lia. }
  apply Zdigits2_bounds in Hd as [_ Hm]. change (2 ^ (53 - 1)) with 4503599627370496 in Hm.
  change (2 ^ 53) with 9007199254740992 in Hm.
  apply Prim2SF_inj. rewrite add_spec, sub_spec, Hw.
  change (Prim2SF 1) with (S754_finite false 4503599627370496 (-52)).
  unfold SF64add, SF64sub. rewrite SFsub_finite. cbv zeta. cbn [cond_Zopp].
  replace (Z.min (-52) e) with e by lia. rewrite Z.sub_diag, Z.mul_1_r.
  assert (He' : e = -53 \/ e = -52) by lia.
  destruct He' as [-> | ->].
  - (* w in [1/2, 1): 1 - w = (2^53 - m) * 2^-53 *)
    change (4503599627370496 * 2 ^ (-52 - -53)) with 9007199254740992.
    destruct (9007199254740992 - Z.pos m) as [|k|k] eqn:Hk; try lia.
    cbn [binary_normalize].
    pose proof (Zdigits2_bounds k (Zdigits2 (Z.pos k))) as [Hdk _].
    specialize (Hdk eq_refl) as [Hdk0 Hdk].
    assert (Hdk53 : Zdigits2 (Z.pos k) <= 53).
    { destruct (Z.le_gt_cases (Zdigits2 (Z.pos k)) 53) as [|Hgt]; [done |].
      assert (2 ^ 53 <= 2 ^ (Zdigits2 (Z.pos k) - 1)) by (apply Z.pow_le_mono_r; lia).
      change (2 ^ 53) with 9007199254740992 in *. lia. }
    destruct (binary_round_normal false k (-53)) as (m0 & Hm0 & Hb0 & ->);
      [lia | unfold emin, prec, emax; lia | unfold emin, prec, emax; lia |].
    set (j := 53 - Zdigits2 (Z.pos k)) in *.
    rewrite SFadd_finite. cbv zeta. cbn [cond_Zopp].
    replace (Z.min (-53 - j) (-53)) with (-53 - j) by lia.
    rewrite Z.sub_diag, Z.mul_1_r.
    replace (-53 - (-53 - j)) with j by lia.
    assert (Hsum : Z.pos m0 + Z.pos m * 2 ^ j = 4503599627370496 * 2 ^ (-52 - (-53 - j))).
    { replace (-52 - (-53 - j)) with (1 + j) by lia.
      rewrite Z.pow_add_r by lia. change (2 ^ 1) with 2. lia. }
    assert (Hpos : 0 < 4503599627370496 * 2 ^ (-52 - (-53 - j))) by (apply Z.mul_pos_pos; lia).
    destruct (Z.pos m0 + Z.pos m * 2 ^ j) as [|M|M] eqn:HM; try lia.
    cbn [binary_normalize]. apply binary_round_down; [done | lia | done].
  - (* w in [1, 2): 1 - w = -(m - 2^52) * 2^-52 *)
    rewrite Z.mul_1_r.
    destruct (4503599627370496 - Z.pos m) as [|k|k] eqn:Hk; try lia.
    + cbn [binary_normalize SFadd]. f_equal. lia.
    + cbn [binary_normalize].
      pose proof (Zdigits2_bounds k (Zdigits2 (Z.pos k))) as [Hdk _].
      specialize (Hdk eq_refl) as [Hdk0 Hdk].
      assert (Hdk53 : Zdigits2 (Z.pos k) <= 53).
      { destruct (Z.le_gt_cases (Zdigits2 (Z.pos k)) 53) as [|Hgt]; [done |].
        assert (2 ^ 53 <= 2 ^ (Zdigits2 (Z.pos k) - 1)) by (apply Z.pow_le_mono_r; lia).
        change (2 ^ 53) with 9007199254740992 in *. lia. }
      destruct (binary_round_normal true k (-52)) as (m0 & Hm0 & Hb0 & ->);
        [lia | unfold emin, prec, emax; lia | unfold emin, prec, emax; lia |].
      set (j := 53 - Zdigits2 (Z.pos k)) in *.
      rewrite SFadd_finite. cbv zeta. cbn [cond_Zopp].
      replace (Z.min (-52 - j) (-52)) with (-52 - j) by lia.
      rewrite Z.sub_diag, Z.mul_1_r.
      replace (-52 - (-52 - j)) with j by lia.
      assert (Hsum : - Z.pos m0 + Z.pos m * 2 ^ j = 4503599627370496 * 2 ^ j) by lia.
      assert (Hpos : 0 < 4503599627370496 * 2 ^ j) by (apply Z.mul_pos_pos; lia).
      destruct (- Z.pos m0 + Z.pos m * 2 ^ j) as [|M|M] eqn:HM; try lia.
      cbn [binary_normalize]. apply binary_round_down; [done | lia |].
      rewrite Hsum. f_equal. f_equal. lia.
Qed.

(** *** The range of W *)

Lemma float_of_int_shape (z : Z) :
  2 <= z < 2 ^ 53 ->
  exists mn en, Prim2SF (float_of_Z z) = S754_finite false mn en /\
                Zdigits2 (Z.pos mn) = 53 /\ -51 <= en <= 0.
Proof.
  intros Hz. destruct z as [|p|p]; try lia. unfold float_of_Z.
  rewrite of_uint63_spec, Uint63.of_Z_spec, Z.mod_small.
  2:{ change Uint63.wB with (2 ^ 63). split; [lia |].
      apply Z.lt_trans with (2 ^ 53); [lia | done]. }
  cbn [binary_normalize].
  destruct (Zdigits2_bounds p (Zdigits2 (Z.pos p))) as [Hb _].
  specialize (Hb eq_refl) as [Hd0 Hb].
  assert (Hd : 2 <= Zdigits2 (Z.pos p) <= 53).
  { split.
    - destruct (Z.le_gt_cases 2 (Zdigits2 (Z.pos p))) as [|Hlt]; [done |].
      replace (Zdigits2 (Z.pos p)) with 1 in Hb by lia. simpl in Hb. lia.
    - destruct (Z.le_gt_cases (Zdigits2 (Z.pos p)) 53) as [|Hgt]; [done |].
      assert (2 ^ 53 <= 2 ^ (Zdigits2 (Z.pos p) - 1)) by (apply Z.pow_le_mono_r; lia).
      lia. }
  destruct (binary_round_normal false p 0) as (m0 & Hm0 & Hb0 & ->);
    [lia | unfold emin, prec, emax; lia | unfold emin, prec, emax; lia |].
  eexists _, _. split; [done |]. split; [| lia].
  apply (bounded_digits m0 _ Hb0). unfold emin, prec, emax. lia.
Qed.

(** pi / n for n in [2, 2^53): a normal number below 2, or 2. *)
Lemma pi_over_n_shape (n : float) mn en :
  Prim2SF n = S754_finite false mn en -> Zdigits2 (Z.pos mn) = 53 -> -51 <= en <= 0 ->
  (exists mx ex, Prim2SF (M_PI / n) = S754_finite false mx ex /\
                 Zdigits2 (Z.pos mx) = 53 /\ -104 <= ex <= -52) \/
  (M_PI / n)%float = 2%float.
Proof.
  intros Hn Hd He. rewrite div_spec, Hn.
  change (Prim2SF M_PI) with (S754_finite false 7074237752028440 (-51)).
  unfold SF64div. rewrite SFdiv_finite; [| done | done | unfold emin, prec, emax; lia].
  apply Zdigits2_bounds in Hd as [_ Hmn].
  change (2 ^ (53 - 1)) with 4503599627370496 in Hmn.
  change (2 ^ 53) with 9007199254740992 in *.
  set (qz := 7074237752028440 * 9007199254740992 / Z.pos mn).
  assert (Hq : 4503599627370496 <= qz < 18014398509481984).
  { split; [apply Z.div_le_lower_bound | apply Z.div_lt_upper_bound]; lia. }
  destruct qz as [|q|q] eqn:Hqq; try lia.
  set (l := new_location _ _). cbn [xorb].
  assert (Hdq : Zdigits2 (Z.pos q) = 53 \/ Zdigits2 (Z.pos q) = 54).
  { destruct (Z.lt_ge_cases (Z.pos q) 9007199254740992).
    - left. apply Zdigits2_bounds. simpl. lia.
    - right. apply Zdigits2_bounds. simpl. lia. }
  pose proof (binary_round_aux_shape false q (-51 - en - 53) l) as Hs. cbv zeta in Hs.
  destruct Hs as [(m' & Hd' & Hr) | Hr];
    [lia | unfold emin, prec, emax; lia | unfold emin, prec, emax; lia | |].
  - left. eexists _, _. split; [exact Hr |]. split; [done | lia].
  - destruct (Z.eq_dec (-51 - en - 53 + Zdigits2 (Z.pos q) - 53 + 1) (-51)) as [Heq | Hne].
    + right. apply Prim2SF_inj. rewrite div_spec, Hn.
      change (Prim2SF M_PI) with (S754_finite false 7074237752028440 (-51)).
      unfold SF64div. rewrite SFdiv_finite;
        [| done | apply Zdigits2_bounds; simpl; lia | unfold emin, prec, emax; lia].
      change (2 ^ 53) with 9007199254740992. fold qz. rewrite Hqq. fold l. cbn [xorb].
      rewrite Hr, Heq. done.
    + left. eexists _, _. split; [exact Hr |]. split; [done | lia].
Qed.

(** 1 + x for a normal x below 2: a normal number of [1, 4), or 4. *)
Lemma one_plus_shape (x : float) mx ex :
  Prim2SF x = S754_finite false mx ex -> Zdigits2 (Z.pos mx) = 53 -> -104 <= ex <= -52 ->
  exists mD eD, Prim2SF (1 + x) = S754_finite false mD eD /\
                Zdigits2 (Z.pos mD) = 53 /\
                (-52 <= eD <= -51 \/ (mD = 4503599627370496%positive /\ eD = -50)).
Proof.
  intros Hx Hd He. rewrite add_spec, Hx.
  change (Prim2SF 1) with (S754_finite false 4503599627370496 (-52)).
  unfold SF64add. rewrite SFadd_finite. cbv zeta. cbn [cond_Zopp].
  replace (Z.min (-52) ex) with ex by lia. rewrite Z.sub_diag, Z.mul_1_r.
  apply Zdigits2_bounds in Hd as [_ Hmx].
  change (2 ^ (53 - 1)) with 4503599627370496 in Hmx.
  change (2 ^ 53) with 9007199254740992 in Hmx.
  set (n := -52 - ex) in *.
  assert (Hn : 0 < 2 ^ n) by (apply Z.pow_pos_nonneg; lia).
  destruct (4503599627370496 * 2 ^ n + Z.pos mx) as [|M|M] eqn:HM; try lia.
  cbn [binary_normalize]. unfold binary_round.
  change (Z.pos (digits2_pos M)) with (Zdigits2 (Z.pos M)).
  assert (HdM : Zdigits2 (Z.pos M) = (if Z.eq_dec n 0 then 54 else 1 - ex)).
  { destruct (Z.eq_dec n 0) as [Hn0 | Hn0].
    - rewrite Hn0 in HM. apply Zdigits2_bounds. simpl in *. lia.
    - apply Zdigits2_bounds. split; [lia |].
      replace (1 - ex - 1) with (52 + n) by lia. replace (1 - ex) with (53 + n) by lia.
      rewrite !Z.pow_add_r by lia.
      change (2 ^ 52) with 4503599627370496. change (2 ^ 53) with 9007199254740992.
      assert (2 <= 2 ^ n).
      { replace n with (1 + (n - 1)) by lia. rewrite Z.pow_add_r by lia.
        assert (0 < 2 ^ (n - 1)) by (apply Z.pow_pos_nonneg; lia).
        change (2 ^ 1) with 2. lia. }
      lia. }
  rewrite shl_align_ge.
  2:{ rewrite HdM. unfold fexp, emin, prec, emax. destruct (Z.eq_dec n 0); lia. }
  pose proof (binary_round_aux_shape false M ex loc_Exact) as Hs. cbv zeta in Hs.
  rewrite HdM in Hs.
  destruct Hs as [(m' & Hd' & Hr) | Hr].
  - destruct (Z.eq_dec n 0); lia.
  - unfold emin, prec, emax. destruct (Z.eq_dec n 0); lia.
  - unfold emin, prec, emax. destruct (Z.eq_dec n 0); lia.
  - eexists _, _. split; [exact Hr |]. split; [done |]. left.
    destruct (Z.eq_dec n 0); lia.
  - eexists _, _. split; [exact Hr |]. split; [done |].
    destruct (Z.eq_dec n 0); [right | left]; split; (done || lia).
Qed.

(** 2 / D for D in [1, 4]: a normal number of [1/2, 2), or 2. *)
Lemma two_over_shape (D : float) mD eD :
  Prim2SF D = S754_finite false mD eD -> Zdigits2 (Z.pos mD) = 53 ->
  -52 <= eD <= -51 \/ (mD = 4503599627370496%positive /\ eD = -50) ->
  (exists m e, Prim2SF (2 / D) = S754_finite false m e /\ -53 <= e <= -52) \/
  (2 / D)%float = 2%float.
Proof.
  intros HD Hd He.
  destruct (Pos.eq_dec mD 4503599627370496%positive) as [-> | Hne].
  - assert (HeD : eD = -52 \/ eD = -51 \/ eD = -50) by (destruct He as [? | [_ ?]]; lia).
    destruct HeD as [-> | [-> | ->]].
    + right. replace D with 1%float by (by apply Prim2SF_inj). done.
    + left. replace D with 2%float by (by apply Prim2SF_inj).
      exists 4503599627370496%positive, (-52). split; [reflexivity | lia].
    + left. replace D with 4%float by (by apply Prim2SF_inj).
      exists 4503599627370496%positive, (-53). split; [reflexivity | lia].
  - destruct He as [He | [? _]]; [| done].
    rewrite div_spec, HD.
    change (Prim2SF 2) with (S754_finite false 4503599627370496 (-51)).
    unfold SF64div. rewrite SFdiv_finite; [| done | done | unfold emin, prec, emax; lia].
    apply Zdigits2_bounds in Hd as [_ HmD].
    change (2 ^ (53 - 1)) with 4503599627370496 in HmD.
    change (2 ^ 53) with 9007199254740992 in *.
    assert (HmD' : 4503599627370496 < Z.pos mD) by lia.
    set (qz := 4503599627370496 * 9007199254740992 / Z.pos mD).
    assert (Hq : 4503599627370496 <= qz < 9007199254740992).
    { split; [apply Z.div_le_lower_bound | apply Z.div_lt_upper_bound]; lia. }
    destruct qz as [|q|q] eqn:Hqq; try lia.
    set (l := new_location _ _). cbn [xorb].
    assert (Hdq : Zdigits2 (Z.pos q) = 53) by (apply Zdigits2_bounds; simpl; lia).
    pose proof (binary_round_aux_shape false q (-51 - eD - 53) l) as Hs. cbv zeta in Hs.
    rewrite Hdq in Hs.
    destruct Hs as [(m' & Hd' & Hr) | Hr];
      [lia | unfold emin, prec, emax; lia | unfold emin, prec, emax; lia | |].
    + left. eexists _, _. split; [exact Hr | lia].
    + destruct (Z.eq_dec eD (-52)) as [-> | HeD].
      * right. apply Prim2SF_inj. rewrite div_spec, HD.
        change (Prim2SF 2) with (S754_finite false 4503599627370496 (-51)).
        unfold SF64div. rewrite SFdiv_finite;
          [| done | apply Zdigits2_bounds; simpl; lia | unfold emin, prec, emax; lia].
        change (2 ^ 53) with 9007199254740992. fold qz. rewrite Hqq. fold l. cbn [xorb].
        rewrite Hr. done.
      * left. eexists _, _. split; [exact Hr | lia].
Qed.

(** W = 2 / (1 + pi / NB) lies in [1/2, 2] for every NB >= 2. *)
Lemma relax_W_shape (nb : nat) :
  2 <= Z.of_nat nb < 2 ^ 53 ->
  let W : float := relax_W nb in
  (exists m e, Prim2SF W = S754_finite false m e /\ -53 <= e <= -52) \/
  W = 2%float \/ W = (2 / (1 + 2))%float.
Proof.
  intros Hnb W.
  assert (HW : W = (2 / (1 + M_PI / float_of_Z (Z.of_nat nb)))%float) by reflexivity.
  destruct (float_of_int_shape (Z.of_nat nb) Hnb) as (mn & en & Hn & Hdn & Hen).
  destruct (pi_over_n_shape _ mn en Hn Hdn Hen) as [(mx & ex & Hx & Hdx & Hex) | Hx].
  - destruct (one_plus_shape _ mx ex Hx Hdx Hex) as (mD & eD & HD & HdD & HeD).
    destruct (two_over_shape _ mD eD HD HdD HeD) as [(m & e & Hw & He) | Hw].
    + left. exists m, e. by rewrite HW.
    + right. left. by rewrite HW.
  - right. right. by rewrite HW, Hx.
Qed.

(** C7.  In binary64, for every NB > 0 (up to 2^53 - 1, which covers every
    positive [int]) the weights of the stencil sum to one without any
    rounding error: (1 - W) + 4*(W/4) == 1 with W = 2/(1 + pi/NB) as the code
    computes it; the value the stencil stores combines the old cell value,
    with weight 1 - W, and the sum of the four neighbours, with weight
    W/4. *)
Theorem stencil_weights_sum_to_one (nb : nat) :
  (0 < nb)%nat -> Z.of_nat nb < 2 ^ 53 ->
  let W : float := relax_W nb in
  W = (2 / (1 + M_PI / float_of_Z (Z.of_nat nb)))%float /\
  ((#1 - W) + #4 * (W / #4))%sc = (#1)%sc /\
  forall (nm om : list float) pos,
    stencil W nm om nb pos =
      ((1 - W) * get om pos +
       W / 4 * (get nm (pos - 1)%nat + get om (pos + 1)%nat +
                get nm (pos - (nb + 2))%nat + get om (pos + (nb + 2))%nat))%float.
Proof.
  intros Hnb Hint W. split; [reflexivity |]. split; [| reflexivity].
  change ((1 - W) + 4 * (W / 4) = 1)%float.
  destruct (Z.eq_dec (Z.of_nat nb) 1) as [H1 | H1].
  - subst W. replace nb with 1%nat by lia. vm_compute. reflexivity.
  - destruct (relax_W_shape nb ltac:(lia)) as [(m & e & Hw & He) | [Hw | Hw]]; fold W in Hw.
    + rewrite (quarter_exact W m e Hw ltac:(lia)). exact (one_minus_plus W m e Hw He).
    + rewrite Hw. vm_compute. reflexivity.
    + rewrite Hw. vm_compute. reflexivity.
Qed.

End Weights.

(** ** Facts about the driver *)

Section DriverFacts.
Context {T : Type} `{Scalar T}.
Implicit Types (h : heap T) (p q : buf) (st : state T) (a : args T) (w : world T).

Lemma block_store_ne h p q v : p <> q -> block (store h p v) q = block h q.
Proof. by destruct p, q. Qed.

Lemma block_store_eq h p v : block (store h p v) p = (fun _ => v) <$> block h p.
Proof. by destruct p. Qed.

Lemma load_store_eq h p v : is_Some (block h p) -> load (store h p v) p = v.
Proof. intros [x Hx]. unfold load. by rewrite block_store_eq, Hx. Qed.

Lemma load_store_ne h p q v : p <> q -> load (store h p v) q = load h q.
Proof. intros Hne. unfold load. by rewrite block_store_ne. Qed.

Lemma write_at_length (data : list T) off (l : list T) :
  length (write_at off data l) = length l.
Proof.
  revert off l. induction data as [|x data IH]; intros off l; simpl; [done |].
  by rewrite IH, length_insert.
Qed.

Lemma write_at_lookup_out (data : list T) off (l : list T) k :
  k < off \/ off + length data <= k -> write_at off data l !! k = l !! k.
Proof.
  revert off l. induction data as [|x data IH]; intros off l Hk; simpl; [done |].
  simpl in Hk. rewrite IH by lia. apply list_lookup_insert_ne. lia.
Qed.

Lemma unpack_length a rw re (o : list T) : length (unpack a rw re o) = length o.
Proof.
  unfold unpack. generalize (seq 0 (a_MB a)). intros l. revert o.
  induction l as [|i l IH]; intros o; simpl; [done |].
  by rewrite IH, !length_insert.
Qed.

Lemma unpack_lookup_other a rw re (o : list T) k :
  (forall i, i < a_MB a ->
     k <> (i + 1) * (a_NB a + 2) /\ k <> (i + 1) * (a_NB a + 2) + a_NB a + 1) ->
  unpack a rw re o !! k = o !! k.
Proof.
  unfold unpack. intros Hk.
  assert (Hl : forall i, i ∈ seq 0 (a_MB a) -> i < a_MB a).
  { intros i Hi%list_elem_of_In%in_seq. lia. }
  revert Hl. generalize (seq 0 (a_MB a)). intros l. revert o.
  induction l as [|i l IH]; intros o Hl; simpl; [done |].
  rewrite IH by (intros i' Hi'; apply Hl; by right).
  destruct (Hk i) as [H1 H2]; [apply Hl; left |].
  by rewrite !list_lookup_insert_ne.
Qed.

(** The exchange leaves the interior cells of [om] as they are. *)
Lemma haloed_interior a w st k :
  k ∈ interior (a_NB a) (a_MB a) ->
  haloed a w st !! k = load (hp st) (om st) !! k.
Proof.
  intros (i & j & Hi & Hj & ->)%interior_elem. unfold haloed.
  rewrite unpack_lookup_other.
  - assert (Hs : forall d (o : list T),
              write_at (RECV_SOUTH (a_NB a) (a_MB a)) (received w st d (a_NB a)) o
                !! idx (a_NB a) i j = o !! idx (a_NB a) i j).
    { intros d o. apply write_at_lookup_out. left.
      unfold RECV_SOUTH, idx. nia. }
    assert (Hn : forall d (o : list T),
              write_at (RECV_NORTH (a_NB a) (a_MB a)) (received w st d (a_NB a)) o
                !! idx (a_NB a) i j = o !! idx (a_NB a) i j).
    { intros d o. apply write_at_lookup_out. right.
      unfold RECV_NORTH, idx, received. rewrite length_take. nia. }
    destruct (has_south a), (has_north a); by rewrite ?Hs, ?Hn.
  - intros i' Hi'. unfold idx. split; intros Heq.
    + destruct (divmod_unique (a_NB a + 2) (1 + i) (j + 1) 0 (i' + 1)); lia.
    + destruct (divmod_unique (a_NB a + 2) (1 + i) (j + 1) (a_NB a + 1) (i' + 1)); lia.
Qed.

Lemma haloed_length a w st :
  length (haloed a w st) = length (load (hp st) (om st)).
Proof.
  unfold haloed. rewrite unpack_length.
  destruct (has_south a), (has_north a); by rewrite ?write_at_length.
Qed.

(** One turn of the loop, field by field. *)
Lemma iteration_iter a w st : iter (iteration a w st) = (iter st + 1)%Z.
Proof. done. Qed.

Lemma iteration_om a w st : om (iteration a w st) = nm st.
Proof. done. Qed.

Lemma iteration_nm a w st : nm (iteration a w st) = om st.
Proof. done. Qed.

Lemma iteration_diff_norm a w st : is_Some (diff_norm (iteration a w st)).
Proof. by eexists. Qed.

Lemma iteration_hp a w st :
  hp (iteration a w st) =
  let h := store (hp st) (om st) (haloed a w st) in
  store h (nm st) (SOR1 (load h (nm st)) (load h (om st)) (a_NB a) (a_MB a)).1.
Proof. done. Qed.

Lemma iteration_log a w st :
  exists l, log (iteration a w st) = log st ++ diagnostics a st ++ l /\
            EvWaitall ∈ l /\ Exists (fun e => exists x, e = EvAllreduce x) l.
Proof.
  eexists. split.
  - unfold iteration, swap, relax, halo_exchange, with_log. simpl.
    rewrite <- !(assoc_L (++)). reflexivity.
  - split.
    + apply elem_of_app. left. unfold halo_events.
      rewrite !elem_of_app. do 8 right. left.
    + apply Exists_app. right. left. by eexists.
Qed.

Lemma iter_turns a w n st : iter (Nat.iter n (iteration a w) st) = (iter st + Z.of_nat n)%Z.
Proof.
  induction n as [|n IH]; [simpl; lia |].
  rewrite Nat.iter_succ, iteration_iter, IH. lia.
Qed.

(** With fuel for every turn the loop ends; it never ends early. *)
Lemma do_while_turns a w fuel st :
  turns a st <= fuel ->
  do_while a w fuel st = Some (Nat.iter (turns a st) (iteration a w) st).
Proof.
  revert st. induction fuel as [|fuel IH]; intros st Hfuel.
  { unfold turns in Hfuel. lia. }
  cbn [do_while]. rewrite iteration_iter.
  destruct (Z.ltb_spec (iter st + 1) (a_max_iter a)) as [Hlt | Hge].
  - rewrite IH.
    + replace (turns a st) with (S (turns a (iteration a w st)))
        by (unfold turns; rewrite iteration_iter; lia).
      by rewrite Nat.iter_succ_r.
    + unfold turns in *. rewrite iteration_iter. lia.
  - replace (turns a st) with 1 by (unfold turns; lia). done.
Qed.

Lemma do_while_short a w fuel st :
  fuel < turns a st -> do_while a w fuel st = None.
Proof.
  revert st. induction fuel as [|fuel IH]; intros st Hfuel; [done |].
  cbn [do_while]. rewrite iteration_iter.
  destruct (Z.ltb_spec (iter st + 1) (a_max_iter a)) as [Hlt | Hge].
  - apply IH. unfold turns in *. rewrite iteration_iter. lia.
  - unfold turns in Hfuel. lia.
Qed.

Lemma turns_init a w : turns a (init a w) = Z.to_nat (Z.max 1 (a_max_iter a)).
Proof. unfold turns. simpl. f_equal. lia. Qed.

(** The two pointers after [n] turns: they never alias, both blocks are
    live, and [om] is the caller's block exactly after an even number. *)
Lemma pointers_after a w n :
  let st := Nat.iter n (iteration a w) (init a w) in
  (om st, nm st) = (if Nat.even n then (Matrix, Fresh) else (Fresh, Matrix)) /\
  is_Some (blk_matrix (hp st)) /\ is_Some (blk_fresh (hp st)).
Proof.
  induction n as [|n IH]; [simpl; eauto |].
  rewrite Nat.iter_succ. cbv zeta in *.
  set (st := Nat.iter n (iteration a w) (init a w)) in *.
  destruct IH as (Hp & [m Hm] & [f Hf]).
  rewrite iteration_om, iteration_nm, iteration_hp, Nat.even_succ.
  rewrite <- Nat.negb_even. cbv zeta.
  destruct (Nat.even n); simpl in *; injection Hp as -> ->; simpl;
    rewrite Hm, Hf; simpl; eauto.
Qed.

End DriverFacts.

(** ** The driver: buffers, loop, log *)

Section DriverClaims.
Context {T : Type} `{Scalar T}.
Implicit Types (st : state T) (a : args T) (w : world T).

Lemma log_after_turns a w n st :
  exists l, log (Nat.iter n (iteration a w) st) = log st ++ l /\
    (0 < n -> exists l', l = diagnostics a st ++ l' /\ EvWaitall ∈ l' /\
                         Exists (fun e => exists x, e = EvAllreduce x) l').
Proof.
  revert st. induction n as [|n IH]; intros st.
  { exists []. split; [by rewrite app_nil_r | lia]. }
  rewrite Nat.iter_succ_r. destruct (IH (iteration a w st)) as (l & Hl & _).
  destruct (iteration_log a w st) as (l1 & Hl1 & Hw & Ha).
  exists (diagnostics a st ++ l1 ++ l). split.
  - by rewrite Hl, Hl1, <- !(assoc_L (++)).
  - intros _. exists (l1 ++ l). split; [done |]. split.
    + apply elem_of_app. by left.
    + apply Exists_app. by left.
Qed.

Lemma loop_exit_turns a w fuel :
  Z.to_nat (Z.max 1 (a_max_iter a)) <= fuel ->
  loop_exit a w fuel =
  Some (Nat.iter (Z.to_nat (Z.max 1 (a_max_iter a))) (iteration a w) (init a w)).
Proof.
  intros Hfuel. unfold loop_exit. rewrite <- (turns_init a w) in *.
  by apply do_while_turns.
Qed.

Lemma jacobi_cpu_returns_turns_aux a w fuel :
  Z.to_nat (Z.max 1 (a_max_iter a)) <= fuel ->
  let ex := Nat.iter (Z.to_nat (Z.max 1 (a_max_iter a))) (iteration a w) (init a w) in
  loop_exit a w fuel = Some ex /\
  jacobi_cpu a w fuel = Some (Z.max 1 (a_max_iter a), finish ex).
Proof.
  intros Hfuel ex. split; [by apply loop_exit_turns |].
  unfold jacobi_cpu. rewrite loop_exit_turns by done. simpl.
  rewrite iter_turns. simpl. do 2 f_equal. lia.
Qed.

(** C8.  [SOR1] keeps the length of [nm] and leaves every cell of [nm]
    that is not one of the NB*MB interior cells as it was; the call made by
    the driver, through the pointers [om] and [nm] to two different blocks,
    leaves the block under [om] as it was. *)
Theorem SOR1_writes_interior_of_nm_only (nm0 om0 : list T) nb mb :
  let nm' := (SOR1 nm0 om0 nb mb).1 in
  length nm' = length nm0 /\
  (forall q, (forall i j, i < nb -> j < mb -> q <> 1 + i + (j + 1) * (nb + 2)) ->
             nm' !! q = nm0 !! q) /\
  (forall a w st, om st <> nm st ->
     block (hp (relax a w st)) (om st) = block (hp st) (om st)).
Proof.
  cbv zeta. rewrite SOR1_sweep. split; [apply sweep_length |]. split.
  - intros q Hq. apply sweep_other.
    intros (i & j & Hi & Hj & ->)%interior_elem. by eapply Hq.
  - intros a w st Hne. simpl. by apply block_store_ne.
Qed.

(** C6 (amended).  The loop of [jacobi_cpu] ends on the iteration counter
    alone: whatever epsilon and the norms are, the body runs
    max(1, max_iter) times, no fewer, and that count is returned; it is
    max_iter whenever max_iter >= 1. *)
Theorem jacobi_cpu_returns_turns a w fuel :
  Z.to_nat (Z.max 1 (a_max_iter a)) <= fuel ->
  let n := Z.to_nat (Z.max 1 (a_max_iter a)) in
  loop_exit a w fuel = Some (Nat.iter n (iteration a w) (init a w)) /\
  (exists st, jacobi_cpu a w fuel = Some (Z.max 1 (a_max_iter a), st)) /\
  (1 <= a_max_iter a -> Z.max 1 (a_max_iter a) = a_max_iter a)%Z /\
  (forall fuel', fuel' < n -> jacobi_cpu a w fuel' = None).
Proof.
  intros Hfuel n. split; [by apply loop_exit_turns |]. split; [| split].
  - unfold jacobi_cpu. rewrite loop_exit_turns by done. simpl.
    eexists. rewrite iter_turns. simpl. do 2 f_equal. lia.
  - lia.
  - intros fuel' Hlt. unfold jacobi_cpu, loop_exit.
    rewrite do_while_short; [done |]. by rewrite turns_init.
Qed.

Lemma even_turns a :
  Z.even (Z.max 1 (a_max_iter a)) = Nat.even (Z.to_nat (Z.max 1 (a_max_iter a))).
Proof.
  rewrite <- (Z2Nat.id (Z.max 1 (a_max_iter a))) at 1 by lia.
  generalize (Z.to_nat (Z.max 1 (a_max_iter a))). intros k.
  induction k as [|k IH]; [done |].
  rewrite Nat2Z.inj_succ, Z.even_succ, Nat.even_succ, <- Z.negb_even, IH.
  by rewrite Nat.negb_even.
Qed.

(** C4 (amended).  When [jacobi_cpu] returns, the block obtained from
    calloc has been freed and the caller's matrix is the one grid buffer
    still live, for every max_iter.  The matrix holds the final iterate
    when the number of turns, max(1, max_iter), is even. *)
Theorem jacobi_cpu_keeps_the_callers_block a w fuel :
  Z.to_nat (Z.max 1 (a_max_iter a)) <= fuel ->
  exists ex st,
    loop_exit a w fuel = Some ex /\
    jacobi_cpu a w fuel = Some (Z.max 1 (a_max_iter a), st) /\
    block (hp st) Fresh = None /\
    is_Some (block (hp st) Matrix) /\
    block (hp st) Matrix = block (hp ex) Matrix /\
    (Z.even (Z.max 1 (a_max_iter a)) = true ->
       om ex = Matrix /\ load (hp st) Matrix = final_iterate ex).
Proof.
  intros Hfuel.
  destruct (jacobi_cpu_returns_turns_aux a w fuel Hfuel) as (Hex & Hret).
  set (n := Z.to_nat (Z.max 1 (a_max_iter a))) in *.
  set (ex := Nat.iter n (iteration a w) (init a w)) in *.
  destruct (pointers_after a w n) as (Hp & [m Hm] & [f Hf]). fold ex in Hp, Hm, Hf.
  exists ex, (finish ex). split; [done |]. split; [done |].
  rewrite even_turns. fold n. unfold final_iterate, load.
  destruct (Nat.even n); injection Hp as Hom Hnm; simpl;
    rewrite Hom, ?Hnm; simpl; rewrite ?Hm, ?Hf; simpl;
    (repeat split; eauto; discriminate).
Qed.

(** After an odd number of turns the final iterate is in the block from
    calloc, the one that is freed; the matrix holds the source of the last
    pass. *)
Lemma odd_turns_free_the_iterate a w fuel :
  Z.to_nat (Z.max 1 (a_max_iter a)) <= fuel ->
  Z.even (Z.max 1 (a_max_iter a)) = false ->
  exists ex st,
    loop_exit a w fuel = Some ex /\
    jacobi_cpu a w fuel = Some (Z.max 1 (a_max_iter a), st) /\
    om ex = Fresh /\
    block (hp ex) Fresh = Some (final_iterate ex) /\
    block (hp st) Fresh = None /\
    load (hp st) Matrix = load (hp ex) (nm ex).
Proof.
  intros Hfuel Hodd.
  destruct (jacobi_cpu_returns_turns_aux a w fuel Hfuel) as (Hex & Hret).
  rewrite even_turns in Hodd.
  set (n := Z.to_nat (Z.max 1 (a_max_iter a))) in *.
  set (ex := Nat.iter n (iteration a w) (init a w)) in *.
  destruct (pointers_after a w n) as (Hp & [m Hm] & [f Hf]). fold ex in Hp, Hm, Hf.
  rewrite Hodd in Hp. injection Hp as Hom Hnm.
  exists ex, (finish ex). split; [done |]. split; [done |].
  unfold final_iterate, load. simpl. rewrite Hom, Hnm. simpl.
  by rewrite Hm, Hf.
Qed.

(** C5 (amended).  [jacobi_cpu] makes no check of size against P: for every
    size and every P other than 0 (where [rank % P] is undefined), whether P
    divides size or not, it first splits the communicator twice, runs the
    loop with its exchanges and reductions, and returns the number of
    turns. *)
Theorem jacobi_cpu_splits_unchecked a w fuel :
  a_P a <> 0%Z ->
  Z.to_nat (Z.max 1 (a_max_iter a)) <= fuel ->
  exists st l,
    jacobi_cpu a w fuel = Some (Z.max 1 (a_max_iter a), st) /\
    log st = EvCommSplit (Z.rem (a_rank a) (a_P a)) (a_rank a)
             :: EvCommSplit (Z.quot (a_rank a) (a_P a)) (a_rank a) :: l /\
    EvWaitall ∈ l /\
    Exists (fun e => exists x, e = EvAllreduce x) l.
Proof.
  intros _ Hfuel.
  destruct (jacobi_cpu_returns_turns_aux a w fuel Hfuel) as (_ & Hret).
  set (n := Z.to_nat (Z.max 1 (a_max_iter a))) in *.
  destruct (log_after_turns a w n (init a w)) as (l & Hl & Hn).
  destruct Hn as (l' & -> & Hw & Ha); [unfold n; lia |].
  eexists _, _. split; [exact Hret |]. split.
  - simpl. rewrite Hl. simpl. reflexivity.
  - split.
    + rewrite !elem_of_app. left. by right.
    + rewrite !Exists_app. left. by right.
Qed.

(** C10.  [diff_norm] is unassigned when the loop is entered and stays so
    until the call of [SOR1] assigns it; on rank 0 the first thing the loop
    does is the printf of iteration 0, which reads it: the log of the run
    continues, after the two splits, with that print of an unassigned
    value. *)
Theorem first_print_reads_unassigned a w fuel :
  a_rank a = 0%Z ->
  Z.to_nat (Z.max 1 (a_max_iter a)) <= fuel ->
  let st0 := with_log (init a w) (diagnostics a (init a w)) in
  diff_norm (init a w) = None /\
  diff_norm (halo_exchange a w st0) = None /\
  is_Some (diff_norm (relax a w (halo_exchange a w st0))) /\
  exists st l,
    jacobi_cpu a w fuel = Some (Z.max 1 (a_max_iter a), st) /\
    log st = [EvCommSplit (Z.rem (a_rank a) (a_P a)) (a_rank a);
              EvCommSplit (Z.quot (a_rank a) (a_P a)) (a_rank a);
              EvPrint 0 None (a_epsilon a)] ++ l.
Proof.
  intros Hrank Hfuel st0. split; [done |]. split; [done |].
  split; [by eexists |].
  destruct (jacobi_cpu_returns_turns_aux a w fuel Hfuel) as (_ & Hret).
  set (n := Z.to_nat (Z.max 1 (a_max_iter a))) in *.
  destruct (log_after_turns a w n (init a w)) as (l & Hl & Hn).
  destruct Hn as (l' & -> & _); [unfold n; lia |].
  eexists _, _. split; [exact Hret |].
  simpl. rewrite Hl. unfold diagnostics.
  replace (a_rank a =? 0)%Z with true by (symmetry; by apply Z.eqb_eq).
  simpl. reflexivity.
Qed.

(** The first turn: [nm] is the zeroed block from calloc, [om] the caller's
    matrix after the exchange. *)
Lemma first_turn a w :
  let st1 := iteration a w (init a w) in
  let zeros := replicate ((a_NB a + 2) * (a_MB a + 2)) (#0)%sc in
  load (hp (halo_exchange a w (with_log (init a w) (diagnostics a (init a w))))) Fresh
    = zeros /\
  load (hp st1) Matrix = haloed a w (init a w) /\
  load (hp st1) Fresh = (SOR1 zeros (haloed a w (init a w)) (a_NB a) (a_MB a)).1.
Proof. done. Qed.

Lemma first_pass_value a w i j :
  i < a_NB a -> j < a_MB a ->
  let st1 := iteration a w (init a w) in
  let n1 := load (hp st1) Fresh in
  let o1 := load (hp st1) Matrix in
  let pos := idx (a_NB a) i j in
  let W := relax_W (a_NB a) in
  get n1 pos =
    ((#1 - W) * get o1 pos +
     W / #4 * ((if decide (i = 0) then #0 else get n1 (idx (a_NB a) (i - 1) j)) +
               get o1 (pos + 1) +
               (if decide (j = 0) then #0 else get n1 (idx (a_NB a) i (j - 1))) +
               get o1 (pos + (a_NB a + 2))))%sc.
Proof.
  intros Hi Hj st1 n1 o1 pos W.
  destruct (first_turn a w) as (_ & Ho & Hn). fold st1 in Ho, Hn.
  subst n1 o1. rewrite Ho, Hn.
  set (zeros := replicate ((a_NB a + 2) * (a_MB a + 2)) (#0)%sc).
  set (n1 := (SOR1 zeros (haloed a w (init a w)) (a_NB a) (a_MB a)).1).
  assert (Hz : forall k, get zeros k = (#0)%sc).
  { intros k. unfold get, zeros. destruct (replicate _ _ !! k) as [x|] eqn:Hk; [| done].
    by apply lookup_replicate in Hk as [-> _]. }
  assert (Hwest : get n1 (pos - 1) =
                  if decide (i = 0) then (#0)%sc else get n1 (idx (a_NB a) (i - 1) j)).
  { destruct (decide (i = 0)) as [-> | Hi0].
    - unfold n1, pos. rewrite <- (Hz (idx (a_NB a) 0 j - 1)).
      apply get_ext, SOR1_ghost, west_of_first_column.
    - f_equal. unfold pos, idx. lia. }
  assert (Hnorth : get n1 (pos - (a_NB a + 2)) =
                   if decide (j = 0) then (#0)%sc else get n1 (idx (a_NB a) i (j - 1))).
  { destruct (decide (j = 0)) as [-> | Hj0].
    - unfold n1, pos. rewrite <- (Hz (idx (a_NB a) i 0 - (a_NB a + 2))).
      by apply get_ext, SOR1_ghost, north_of_first_row.
    - f_equal. unfold pos, idx. nia. }
  rewrite <- Hwest, <- Hnorth. unfold n1.
  rewrite SOR1_stencil_eq; [done | apply length_replicate |].
  apply interior_elem. eauto.
Qed.

(** C9.  The halo exchange stores through [om] only: with [om] and [nm] on
    different blocks, the block under [nm] is left as it is, and in the
    block under [om] no interior cell changes.  In the first turn the block
    under [nm] is therefore still the zeroed block from calloc when [SOR1]
    runs, and the west operand on the first column and the north operand on
    the first row are 0.0, whatever border the caller's matrix has. *)
Theorem halo_exchange_refreshes_om_only a w :
  (forall st, om st <> nm st ->
     block (hp (halo_exchange a w st)) (nm st) = block (hp st) (nm st) /\
     forall pos, pos ∈ interior (a_NB a) (a_MB a) ->
       load (hp (halo_exchange a w st)) (om st) !! pos = load (hp st) (om st) !! pos) /\
  om (init a w) <> nm (init a w) /\
  let st1 := iteration a w (init a w) in
  let n1 := load (hp st1) Fresh in
  let o1 := load (hp st1) Matrix in
  load (hp (halo_exchange a w (with_log (init a w) (diagnostics a (init a w))))) Fresh
    = replicate ((a_NB a + 2) * (a_MB a + 2)) (#0)%sc /\
  forall i j, i < a_NB a -> j < a_MB a ->
    let pos := 1 + i + (j + 1) * (a_NB a + 2) in
    let W := relax_W (a_NB a) in
    get n1 pos =
      ((#1 - W) * get o1 pos +
       W / #4 * ((if decide (i = 0) then #0 else get n1 (pos - 1)) +
                 get o1 (pos + 1) +
                 (if decide (j = 0) then #0 else get n1 (pos - (a_NB a + 2))) +
                 get o1 (pos + (a_NB a + 2))))%sc.
Proof.
  split; [| split; [done |]].
  - intros st Hne. split.
    + simpl. by apply block_store_ne.
    + intros pos Hpos. simpl.
      destruct (block (hp st) (om st)) as [o|] eqn:Hlive.
      * rewrite load_store_eq by (by rewrite Hlive). by apply haloed_interior.
      * unfold load. by rewrite block_store_eq, Hlive.
  - cbv zeta. split; [apply first_turn |].
    intros i j Hi Hj. pose proof (first_pass_value a w i j Hi Hj) as Hv.
    cbv zeta in Hv. unfold idx in Hv. rewrite Hv.
    assert (Hwest : i <> 0 -> 1 + (i - 1) + (j + 1) * (a_NB a + 2)
                              = 1 + i + (j + 1) * (a_NB a + 2) - 1) by lia.
    assert (Hnorth : j <> 0 -> 1 + i + (j - 1 + 1) * (a_NB a + 2)
                               = 1 + i + (j + 1) * (a_NB a + 2) - (a_NB a + 2)) by nia.
    destruct (decide (i = 0)), (decide (j = 0)); by rewrite ?Hwest, ?Hnorth.
Qed.

(** C3 (amended).  In the run with NB = MB = 4, P = Q = 1, interior 0,
    border 10 and max_iter = 1, the new value of interior cell (i,j) is
    (1-W)*0 + (W/4)*(west + east + north + south) with W = 2/(1 + pi/4),
    where west and north are the new values of the cells to the west and to
    the north, and 0 on the first column and the first row (the zeroed
    destination buffer); east is 0, and on the last column the east ghost
    cell of the source buffer as the exchange leaves it; south is 0, and 10
    on the last row.  In particular cell (0,0) gets
    (1-W)*0 + (W/4)*(0+0+0+0). *)
Theorem single_turn_4x4 (w : world T) (eps : T) (save : bool) fuel :
  1 <= fuel ->
  let a := Args (uniform_field 4 4 (#0)%sc (#10)%sc) 4 4 1 1 0 1 eps 1 save in
  exists ex,
    loop_exit a w fuel = Some ex /\
    let new := final_iterate ex in
    let src := load (hp ex) (nm ex) in
    let W : T := (#2 / (#1 + s_pi / #4))%sc in
    (forall i j, i < 4 -> j < 4 ->
       get new (idx 4 i j) =
         ((#1 - W) * #0 +
          W / #4 * ((if decide (i = 0) then #0 else get new (idx 4 (i - 1) j)) +
                    (if decide (i = 3) then get src (idx 4 i j + 1) else #0) +
                    (if decide (j = 0) then #0 else get new (idx 4 i (j - 1))) +
                    (if decide (j = 3) then #10 else #0)))%sc) /\
    get new (idx 4 0 0) = ((#1 - W) * #0 + W / #4 * (#0 + #0 + #0 + #0))%sc.
Proof.
  intros Hfuel a.
  exists (iteration a w (init a w)). split.
  { by rewrite loop_exit_turns. }
  assert (Hcell : forall i j, i < 4 -> j < 4 ->
    get (final_iterate (iteration a w (init a w))) (idx 4 i j) =
      ((#1 - relax_W 4) * #0 +
       relax_W 4 / #4 *
         ((if decide (i = 0) then #0
           else get (final_iterate (iteration a w (init a w))) (idx 4 (i - 1) j)) +
          (if decide (i = 3)
           then get (load (hp (iteration a w (init a w))) Matrix) (idx 4 i j + 1)
           else #0) +
          (if decide (j = 0) then #0
           else get (final_iterate (iteration a w (init a w))) (idx 4 i (j - 1))) +
          (if decide (j = 3) then #10 else #0)))%sc).
  { intros i j Hi Hj.
    pose proof (first_pass_value a w i j Hi Hj) as Hv. cbv zeta in Hv.
    change (final_iterate (iteration a w (init a w)))
      with (load (hp (iteration a w (init a w))) Fresh).
    change (a_NB a) with 4 in Hv. rewrite Hv. clear Hv.
    destruct (first_turn a w) as (_ & -> & _).
    generalize (load (hp (iteration a w (init a w))) Fresh). intros new.
    assert (Ho : haloed a w (init a w) =
                 unpack a (recv_west (init a w)) (recv_east (init a w)) (a_matrix a))
      by done.
    rewrite Ho. clear Ho.
    generalize (recv_west (init a w)) (recv_east (init a w)). intros rw re.
    assert (i = 0 \/ i = 1 \/ i = 2 \/ i = 3) as [-> | [-> | [-> | ->]]] by lia;
      assert (j = 0 \/ j = 1 \/ j = 2 \/ j = 3) as [-> | [-> | [-> | ->]]] by lia;
      reflexivity. }
  cbv zeta. split; [exact Hcell |]. exact (Hcell 0 0 ltac:(lia) ltac:(lia)).
Qed.

(** Without an east or west neighbour nothing is received into [recv_east]
    and [recv_west], and the unpack loop still copies them over the two
    ghost columns of [om]: what the caller put there is replaced by what the
    two buffers held when malloc returned them. *)
Lemma lone_process_ghost_columns a w st i :
  has_east a = false -> has_west a = false ->
  is_Some (block (hp st) (om st)) ->
  length (load (hp st) (om st)) = (a_NB a + 2) * (a_MB a + 2) ->
  i < a_MB a ->
  let o := load (hp (halo_exchange a w st)) (om st) in
  get o ((i + 1) * (a_NB a + 2)) = get (recv_west st) i /\
  get o ((i + 1) * (a_NB a + 2) + a_NB a + 1) = get (recv_east st) i.
Proof.
  intros He Hw Hlive Hlen Hi o. subst o. simpl. rewrite load_store_eq by done.
  unfold haloed, recv_east', recv_west'. rewrite He, Hw.
  set (o := if has_south a then _ else _).
  assert (Hlo : length o = (a_NB a + 2) * (a_MB a + 2)).
  { subst o. destruct (has_south a), (has_north a); by rewrite ?write_at_length. }
  clearbody o. unfold unpack.
  assert (Hgen : forall l (o : list T),
    length o = (a_NB a + 2) * (a_MB a + 2) -> NoDup l ->
    (forall k, k ∈ l -> k < a_MB a) -> i ∈ l ->
    let o' := foldl (fun o i =>
                 <[(i + 1) * (a_NB a + 2) + a_NB a + 1 := get (recv_east st) i]>
                   (<[(i + 1) * (a_NB a + 2) := get (recv_west st) i]> o)) o l in
    get o' ((i + 1) * (a_NB a + 2)) = get (recv_west st) i /\
    get o' ((i + 1) * (a_NB a + 2) + a_NB a + 1) = get (recv_east st) i).
  { induction l as [|k l IH] using rev_ind; intros o0 Hl0 Hnd Hb Hin.
    { by apply elem_of_nil in Hin. }
    rewrite foldl_app. simpl.
    apply NoDup_app in Hnd as (Hnd & Hdis & _).
    set (o1 := foldl _ o0 l).
    assert (Hl1 : length o1 = (a_NB a + 2) * (a_MB a + 2)).
    { subst o1. clear -Hl0. revert o0 Hl0.
      induction l as [|x l IHl]; intros o0 Hl0; simpl; [done |].
      apply IHl. by rewrite !length_insert. }
    assert (Hk : k < a_MB a) by (apply Hb, elem_of_app; right; left).
    destruct (decide (i = k)) as [<- | Hne].
    - split.
      + rewrite get_insert_ne by lia. apply get_insert_eq. rewrite Hl1. nia.
      + apply get_insert_eq. rewrite length_insert, Hl1. nia.
    - apply elem_of_app in Hin as [Hin | Hin%list_elem_of_singleton]; [| done].
      destruct (IH o0 Hl0 Hnd) as [IHw IHe]; [| done |].
      { intros k' Hk'. apply Hb, elem_of_app. by left. }
      fold o1 in IHw, IHe. split.
      + rewrite !get_insert_ne; [done | |].
        * intros Heq. destruct (divmod_unique (a_NB a + 2) 0 (k + 1) 0 (i + 1)); lia.
        * intros Heq.
          destruct (divmod_unique (a_NB a + 2) (a_NB a + 1) (k + 1) 0 (i + 1)); lia.
      + rewrite !get_insert_ne; [done | |].
        * intros Heq.
          destruct (divmod_unique (a_NB a + 2) 0 (k + 1) (a_NB a + 1) (i + 1)); lia.
        * intros Heq.
          destruct (divmod_unique (a_NB a + 2) (a_NB a + 1) (k + 1)
                      (a_NB a + 1) (i + 1)); lia. }
  apply Hgen; [done | apply NoDup_seq | |].
  - intros k Hk%list_elem_of_In%in_seq. lia.
  - apply list_elem_of_In, in_seq. lia.
Qed.

End DriverClaims.

(** ** The concrete runs *)

Section RunFacts.
Import PrimFloat.

(** An equation between two binary64 values that [PrimFloat.ltb] tells
    apart is absurd. *)
Ltac float_absurd Heq bound :=
  apply (f_equal (fun x => PrimFloat.ltb x bound)) in Heq;
  vm_compute in Heq; discriminate Heq.

Lemma loop_exit_one_turn (a : args float) (w : world float) fuel st :
  (a_max_iter a <= 1)%Z ->
  loop_exit a w fuel = Some st -> st = iteration a w (init a w).
Proof.
  intros Hmax Hex. destruct fuel as [|fuel]; [discriminate |].
  rewrite loop_exit_turns in Hex.
  - replace (Z.to_nat (Z.max 1 (a_max_iter a))) with 1 in Hex by lia.
    by injection Hex as <-.
  - lia.
Qed.

(** C3, as stated, fails: in the 4x4 run the new value of cell (0,0) is 0,
    not (1-W)*0 + (W/4)*(10+10+10+10). *)
Lemma run_4x4_is_not_uniform :
  ~ (exists fuel ex,
       loop_exit run_4x4 still_world fuel = Some ex /\
       forall i j, i < 4 -> j < 4 ->
         get (final_iterate ex) (idx 4 i j) =
           let W := relax_W 4 in
           ((#1 - W) * #0 + W / #4 * (#10 + #10 + #10 + #10))%sc).
Proof.
  intros (fuel & ex & Hex & Hall).
  apply loop_exit_one_turn in Hex; [| simpl; lia]. subst ex.
  specialize (Hall 0 0 ltac:(lia) ltac:(lia)).
  float_absurd Hall 0.25%float.
Qed.

Lemma single_turn_4x4_witness :
  exists ex,
    loop_exit run_4x4 still_world 1 = Some ex /\
    get (final_iterate ex) (idx 4 0 0) = 0%float /\
    get (final_iterate ex) (idx 4 3 3) =
      let W := relax_W 4 in
      ((#1 - W) * #0 +
       W / #4 * (get (final_iterate ex) (idx 4 2 3) +
                 get (load (hp ex) (nm ex)) (idx 4 3 3 + 1) +
                 get (final_iterate ex) (idx 4 3 2) + #10))%sc.
Proof.
  destruct (single_turn_4x4 still_world 0%float false 1 (le_n 1))
    as (ex & Hex & Hcell & H00).
  exists ex. split; [exact Hex |]. split.
  - rewrite H00. vm_compute. reflexivity.
  - exact (Hcell 3 3 ltac:(lia) ltac:(lia)).
Defined.

Lemma SOR1_interior_value_witness :
  let nm' := (SOR1 (replicate 9 0%float) (uniform_field 1 1 1%float 0%float) 1 1).1 in
  get nm' 4 =
    ((#1 - relax_W 1) * #1 + relax_W 1 / #4 * (get nm' 3 + #0 + get nm' 1 + #0))%sc.
Proof.
  apply (SOR1_interior_value (replicate 9 0%float)
           (uniform_field 1 1 1%float 0%float) 1 1 0 0); [reflexivity | lia | lia].
Defined.

(** C2, as stated, fails in binary64: on a 1x1 grid whose interior cell is
    +infinity the pass stores +infinity again, the cell is unchanged, and
    the value returned is infinity - infinity squared, a NaN, not 0.0. *)
Lemma unchanged_infinite_cell_gives_nan :
  let om := [0; 0; 0; 0; infinity; 0; 0; 0; 0]%float in
  let res := SOR1 om om 1 1 in
  length om = (1 + 2) * (1 + 2) /\
  (forall pos, pos ∈ interior 1 1 -> get res.1 pos = get om pos) /\
  res.1 = om /\
  PrimFloat.is_nan res.2 = true /\
  PrimFloat.eqb res.2 0 = false /\
  res.2 <> (#0)%sc.
Proof.
  intros om res. split; [reflexivity |]. split; [| split; [| split; [| split]]].
  - intros pos Hpos. apply list_elem_of_singleton in Hpos. subst pos.
    vm_compute. reflexivity.
  - vm_compute. reflexivity.
  - vm_compute. reflexivity.
  - vm_compute. reflexivity.
  - intros Heq. apply (f_equal (fun x => PrimFloat.eqb x 0)) in Heq.
    vm_compute in Heq. discriminate Heq.
Qed.

Lemma SOR1_returns_interior_sum_witness :
  (SOR1 (replicate 9 0%float) (replicate 9 0%float) 1 1).2 = 0%float.
Proof.
  destruct (SOR1_returns_interior_sum (replicate 9 0%float) (replicate 9 0%float) 1 1)
    as (_ & _ & _ & _ & Hzero); [reflexivity |].
  apply Hzero; [reflexivity | reflexivity | |];
    intros pos Hpos; apply list_elem_of_singleton in Hpos; subst pos; reflexivity.
Defined.

Lemma stencil_weights_sum_to_one_witness :
  ((#1 - relax_W 4) + #4 * (relax_W 4 / #4))%sc = 1%float.
Proof.
  destruct (stencil_weights_sum_to_one 4) as (_ & Hsum & _);
    [lia | simpl; lia | exact Hsum].
Defined.

(** C6, as stated, fails: with max_iter = 0 the body still runs once and 1
    is returned, not the cap. *)
Lemma run_with_cap_0_returns_1 :
  (exists st, jacobi_cpu (run_1x1 0) still_world 1 = Some (1%Z, st)) /\
  ~ (exists fuel st,
       jacobi_cpu (run_1x1 0) still_world fuel = Some (a_max_iter (run_1x1 0), st)).
Proof.
  split.
  - eexists. vm_compute. reflexivity.
  - intros (fuel & st & Hret). unfold jacobi_cpu in Hret.
    destruct (loop_exit (run_1x1 0) still_world fuel) as [ex|] eqn:Hex; [| discriminate].
    apply loop_exit_one_turn in Hex; [| simpl; lia]. subst ex.
    simpl in Hret. discriminate.
Qed.

Lemma jacobi_cpu_returns_turns_witness :
  loop_exit (run_1x1 3) still_world 5 =
    Some (Nat.iter 3 (iteration (run_1x1 3) still_world) (init (run_1x1 3) still_world)) /\
  (exists st, jacobi_cpu (run_1x1 3) still_world 5 = Some (3%Z, st)) /\
  jacobi_cpu (run_1x1 3) still_world 2 = None.
Proof.
  destruct (jacobi_cpu_returns_turns (run_1x1 3) still_world 5) as (Hex & Hret & _ & Hshort).
  - simpl. lia.
  - split; [exact Hex |]. split; [exact Hret |]. apply Hshort. simpl. lia.
Defined.

(** C4, as stated, fails: after one turn the final iterate is in the block
    that is freed, and the caller's matrix still holds the old interior. *)
Lemma run_one_turn_loses_the_iterate :
  ~ (exists fuel ex n st m,
       loop_exit (run_1x1 1) still_world fuel = Some ex /\
       jacobi_cpu (run_1x1 1) still_world fuel = Some (n, st) /\
       block (hp st) Matrix = Some m /\
       forall pos, pos ∈ interior 1 1 -> get m pos = get (final_iterate ex) pos).
Proof.
  intros (fuel & ex & n & st & m & Hex & Hret & Hm & Hall).
  unfold jacobi_cpu in Hret. rewrite Hex in Hret. simpl in Hret.
  apply loop_exit_one_turn in Hex; [| simpl; lia]. subst ex.
  injection Hret as <- <-. vm_compute in Hm. injection Hm as <-.
  specialize (Hall 4 ltac:(by left)).
  float_absurd Hall 0.75%float.
Qed.

Lemma jacobi_cpu_keeps_the_callers_block_witness :
  exists ex st,
    loop_exit (run_1x1 2) still_world 2 = Some ex /\
    jacobi_cpu (run_1x1 2) still_world 2 = Some (2%Z, st) /\
    block (hp st) Fresh = None /\
    load (hp st) Matrix = final_iterate ex.
Proof.
  destruct (jacobi_cpu_keeps_the_callers_block (run_1x1 2) still_world 2)
    as (ex & st & Hex & Hret & Hfreed & _ & _ & Heven).
  - simpl. lia.
  - exists ex, st. split; [exact Hex |]. split; [exact Hret |].
    split; [exact Hfreed |]. apply Heven. reflexivity.
Defined.

(** C5, as stated, fails: rank 0 of 3 processes with P = 2 returns 1 after
    both splits, a receive from and a send to its south and east
    neighbours, and the reduction. *)
Lemma run_3_by_2_communicates :
  Z.rem (a_size run_3_by_2) (a_P run_3_by_2) <> 0%Z /\
  exists st,
    jacobi_cpu run_3_by_2 crowded_world 1 = Some (1%Z, st) /\
    map is_comm (log st) =
      [true; true; false; true; true; true; true; true; true; true; false; true; true] /\
    take 8 (log st) =
      [EvCommSplit 0 0; EvCommSplit 0 0; EvPrint 0 None 0%float;
       EvIrecv South 1 1; EvIrecv East 1 1;
       EvIsend South 1 [1%float]; EvIsend East 1 [1%float]; EvWaitall].
Proof.
  split; [vm_compute; discriminate |].
  eexists. split; [vm_compute; reflexivity |]. split; reflexivity.
Qed.

Lemma jacobi_cpu_splits_unchecked_witness :
  exists st l,
    jacobi_cpu run_3_by_2 crowded_world 1 = Some (1%Z, st) /\
    log st = EvCommSplit 0 0 :: EvCommSplit 0 0 :: l /\
    EvWaitall ∈ l.
Proof.
  destruct (jacobi_cpu_splits_unchecked run_3_by_2 crowded_world 1)
    as (st & l & Hret & Hlog & Hw & _).
  - simpl. lia.
  - simpl. lia.
  - exists st, l. split; [exact Hret |]. split; [exact Hlog | exact Hw].
Defined.

Lemma first_print_reads_unassigned_witness :
  exists st l,
    jacobi_cpu (run_1x1 1) still_world 1 = Some (1%Z, st) /\
    log st = [EvCommSplit 0 0; EvCommSplit 0 0; EvPrint 0 None 0%float] ++ l.
Proof.
  destruct (first_print_reads_unassigned (run_1x1 1) still_world 1)
    as (_ & _ & _ & st & l & Hret & Hlog).
  - reflexivity.
  - simpl. lia.
  - exists st, l. split; [exact Hret | exact Hlog].
Defined.

End RunFacts.

(** ** More about the stencil pass *)

Section StencilMore.
Context {T : Type} `{Scalar T}.
Implicit Types (nm om : list T) (ps : list nat).

Lemma foldl_ext_in {A B} (f g : A -> B -> A) (x : A) (l : list B) :
  (forall x b, b ∈ l -> f x b = g x b) -> foldl f x l = foldl g x l.
Proof.
  revert x. induction l as [|b l IH]; intros x Hfg; simpl; [done |].
  rewrite Hfg by left. apply IH. intros y c Hc. apply Hfg. by right.
Qed.

(** Two sweeps over the same increasing positions end in the same state
    when the buffers they start from agree outside those positions. *)
Lemma sweep_agree W om nb ps :
  StronglySorted lt ps ->
  forall nm1 nm2 r,
    length nm1 = length nm2 ->
    (forall p, p ∈ ps -> 0 < p) ->
    (forall q, q ∉ ps -> nm1 !! q = nm2 !! q) ->
    foldl (SOR1_at W om nb) (nm1, r) ps = foldl (SOR1_at W om nb) (nm2, r) ps.
Proof.
  induction 1 as [|p ps Hs IH Hall]; intros nm1 nm2 r Hlen Hpos Hout; simpl.
  { f_equal. apply list_eq. intros q. apply Hout, not_elem_of_nil. }
  rewrite Forall_forall in Hall.
  assert (Hp : 0 < p) by (apply Hpos; left).
  assert (Hbelow : forall q, q < p -> get nm1 q = get nm2 q).
  { intros q Hq. apply get_ext, Hout. intros [-> | Hel]%elem_of_cons; [lia |].
    apply Hall in Hel. lia. }
  assert (Hv : stencil W nm1 om nb p = stencil W nm2 om nb p).
  { unfold stencil. by rewrite !(Hbelow (p - 1)), !(Hbelow (p - (nb + 2))) by lia. }
  rewrite Hv.
  set (v := stencil W nm2 om nb p).
  assert (Hin : forall q, q ∉ ps -> <[p := v]> nm1 !! q = <[p := v]> nm2 !! q).
  { intros q Hq. destruct (decide (q = p)) as [-> | Hne].
    - destruct (decide (p < length nm1)) as [Hlt | Hge].
      + rewrite !list_lookup_insert_eq by lia. done.
      + rewrite !list_insert_ge by lia. by rewrite !lookup_ge_None_2 by lia.
    - rewrite !list_lookup_insert_ne by done. apply Hout.
      intros [-> | Hel]%elem_of_cons; done. }
  rewrite (get_ext (<[p := v]> nm1) (<[p := v]> nm2) p).
  - apply IH; [by rewrite !length_insert | | done].
    intros q Hq. apply Hpos. by right.
  - apply Hin. intros Hel. apply Hall in Hel. lia.
Qed.

(** X1.  With no column or no row to visit, SOR1 stores nothing and
    returns 0.0. *)
Theorem SOR1_empty_extent nm om nb mb :
  nb = 0 \/ mb = 0 -> SOR1 nm om nb mb = (nm, (#0)%sc).
Proof.
  intros Hz. rewrite SOR1_sweep.
  assert (Hnil : interior nb mb = []).
  { apply length_zero_iff_nil. rewrite interior_length. lia. }
  by rewrite Hnil.
Qed.

(** X2.  What the destination buffer holds in its interior cells before the
    pass has no effect: two destinations of the same length that agree on
    every cell outside the interior give the same buffer and the same
    returned value. *)
Theorem SOR1_overwrites_interior nm1 nm2 om nb mb :
  length nm1 = length nm2 ->
  (forall q, (forall i j, i < nb -> j < mb -> q <> 1 + i + (j + 1) * (nb + 2)) ->
             nm1 !! q = nm2 !! q) ->
  SOR1 nm1 om nb mb = SOR1 nm2 om nb mb.
Proof.
  intros Hlen Hout. rewrite !SOR1_sweep.
  apply sweep_agree; [apply interior_sorted | done | |].
  - intros p Hp%interior_bounds. lia.
  - intros q Hq. apply Hout. intros i j Hi Hj ->. apply Hq, interior_elem. eauto.
Qed.

(** X3.  SOR1 never reads the north ghost row or the west ghost column of
    the source buffer (corners included): two sources that agree on every
    cell outside the first row and the first column give the same result. *)
Theorem SOR1_ignores_north_west_of_om nm om1 om2 nb mb :
  (forall q, nb + 2 <= q -> q mod (nb + 2) <> 0 -> get om1 q = get om2 q) ->
  SOR1 nm om1 nb mb = SOR1 nm om2 nb mb.
Proof.
  intros Hag. rewrite !SOR1_sweep. apply foldl_ext_in.
  intros [nm' r] p (i & j & Hi & Hj & ->)%interior_elem.
  assert (Hcol : forall c, c < nb + 2 ->
            (c + (j + 1) * (nb + 2)) mod (nb + 2) = c).
  { intros c Hc. rewrite Nat.Div0.mod_add. by apply Nat.mod_small. }
  assert (H0 : get om1 (idx nb i j) = get om2 (idx nb i j)).
  { apply Hag; unfold idx; [nia |]. rewrite (Hcol (1 + i)); lia. }
  assert (H1 : get om1 (idx nb i j + 1) = get om2 (idx nb i j + 1)).
  { apply Hag; unfold idx; [nia |].
    replace (1 + i + (j + 1) * (nb + 2) + 1) with (2 + i + (j + 1) * (nb + 2)) by lia.
    rewrite (Hcol (2 + i)); lia. }
  assert (H2 : get om1 (idx nb i j + (nb + 2)) = get om2 (idx nb i j + (nb + 2))).
  { apply Hag; unfold idx; [nia |].
    replace (1 + i + (j + 1) * (nb + 2) + (nb + 2))
      with (1 + i + (j + 1) * (nb + 2) + 1 * (nb + 2)) by lia.
    rewrite Nat.Div0.mod_add, (Hcol (1 + i)); lia. }
  unfold SOR1_at, stencil. by rewrite H0, H1, H2.
Qed.

End StencilMore.

(** ** The returned value in binary64 *)

Section StencilBinary64.
Import PrimFloat SpecFloat FloatOps FloatAxioms.

Lemma binary_round_aux_sign s m e l :
  match binary_round_aux prec emax s m e l with
  | S754_nan => True
  | S754_zero s' | S754_infinity s' | S754_finite s' _ _ => s' = s
  end.
Proof.
  unfold binary_round_aux.
  destruct (shr_fexp prec emax m e l) as [mrs' e'].
  destruct (shr_fexp prec emax _ e' loc_Exact) as [mrs'' e''].
  destruct (shr_m mrs''); [done | | done].
  by destruct (e'' <=? emax - prec)%Z.
Qed.

(** A square has the sign bit clear, or is a NaN. *)
Lemma square_not_negative (x : float) : not_negative (Prim2SF (x * x)).
Proof.
  rewrite mul_spec. unfold SF64mul, SFmul.
  destruct (Prim2SF x) as [s|s| |s m e]; simpl; try done; try by destruct s.
  pose proof (binary_round_aux_sign (xorb s s) (Z.pos (m * m)) (e + e) loc_Exact) as Hs.
  destruct (binary_round_aux _ _ _ _ _ _); simpl in *; try done; by destruct s.
Qed.

Lemma add_not_negative (x y : float) :
  not_negative (Prim2SF x) -> not_negative (Prim2SF y) -> not_negative (Prim2SF (x + y)).
Proof.
  rewrite add_spec. unfold SF64add, SFadd.
  destruct (Prim2SF x) as [sx|sx| |sx mx ex], (Prim2SF y) as [sy|sy| |sy my ey];
    intros Hx Hy; simpl in Hx, Hy; subst; try done.
  unfold binary_normalize, cond_Zopp. simpl Z.add.
  unfold binary_round.
  set (a := (shl_align mx ex _).1). set (b := (shl_align my ey _).1).
  change (Z.pos a + Z.pos b)%Z with (Z.pos (a + b)). cbv beta iota.
  destruct (shl_align (a + b) _ _) as [mz ez].
  pose proof (binary_round_aux_sign false (Z.pos mz) ez loc_Exact) as Hs.
  destruct (binary_round_aux _ _ _ _ _ _); exact Hs.
Qed.

Lemma not_negative_ltb (x : float) :
  not_negative (Prim2SF x) ->
  (x <? 0)%float = false /\ (is_nan x = false -> (0 <=? x)%float = true).
Proof.
  intros Hx. unfold is_nan. rewrite ltb_spec, leb_spec, eqb_spec.
  change (Prim2SF 0) with (S754_zero false).
  destruct (Prim2SF x) as [s|s| |s m e]; simpl in *; subst; done.
Qed.

Lemma sweep_not_negative (W : float) om nb ps nm r :
  not_negative (Prim2SF r) ->
  not_negative (Prim2SF (foldl (SOR1_at W om nb) (nm, r) ps).2).
Proof.
  revert nm r. induction ps as [|p ps IH]; intros nm r Hr; [done |].
  cbn [foldl]. unfold SOR1_at at 2. apply IH.
  apply add_not_negative; [done | apply square_not_negative].
Qed.

(** X4.  In binary64 the value SOR1 returns is never below zero, whatever
    the buffers hold: it does not compare less than 0.0 and, unless it is a
    NaN, it compares greater than or equal to 0.0, so the square root the
    driver prints is never taken of a negative number. *)
Theorem SOR1_is_never_negative (nm om : list float) nb mb :
  let res := (SOR1 nm om nb mb).2 in
  (res <? 0)%float = false /\
  (is_nan res = false -> (0 <=? res)%float = true).
Proof.
  intros res. apply not_negative_ltb. subst res.
  rewrite SOR1_sweep. by apply sweep_not_negative.
Qed.

Lemma SOR1_is_never_negative_witness :
  (0 <=? (SOR1 (replicate 9 0%float) (uniform_field 1 1 1%float 0%float) 1 1).2)%float = true.
Proof.
  destruct (SOR1_is_never_negative (replicate 9 0%float)
              (uniform_field 1 1 1%float 0%float) 1 1) as [_ Hge].
  apply Hge. vm_compute. reflexivity.
Defined.

End StencilBinary64.

(** ** More about the halo exchange *)

Section HaloMore.
Context {T : Type} `{Scalar T}.
Implicit Types (st : state T) (a : args T) (w : world T).

Lemma write_at_lookup_in (data : list T) off (l : list T) k :
  k < length data -> off + k < length l ->
  write_at off data l !! (off + k) = data !! k.
Proof.
  revert off l k. induction data as [|x data IH]; intros off l k Hk Hl; simpl in *.
  { lia. }
  destruct k as [|k].
  - rewrite Nat.add_0_r, write_at_lookup_out by lia.
    by rewrite list_lookup_insert_eq by lia.
  - replace (off + S k) with (S off + k) by lia.
    apply IH; [lia | rewrite length_insert; lia].
Qed.

(** The pack loop, run over any duplicate-free list of rows. *)
Lemma pack_over a (o : list T) (l : list nat) :
  NoDup l ->
  forall sw se,
    (forall k, k ∈ l -> k < length sw /\ k < length se) ->
    let ws := foldl (fun '(sw, se) i =>
                 (<[i := get o ((i + 1) * (a_NB a + 2) + 1)]> sw,
                  <[i := get o ((i + 1) * (a_NB a + 2) + a_NB a + 0)]> se))
               (sw, se) l in
    length ws.1 = length sw /\ length ws.2 = length se /\
    forall i,
      (i ∈ l -> ws.1 !! i = Some (get o ((i + 1) * (a_NB a + 2) + 1)) /\
                ws.2 !! i = Some (get o ((i + 1) * (a_NB a + 2) + a_NB a + 0))) /\
      (i ∉ l -> ws.1 !! i = sw !! i /\ ws.2 !! i = se !! i).
Proof.
  induction 1 as [|k l Hk Hnd IH]; intros sw se Hlen; simpl.
  { split; [done |]. split; [done |]. intros i.
    split; [intros Hi; by apply elem_of_nil in Hi | done]. }
  destruct (Hlen k) as [Hksw Hkse]; [left |].
  destruct (IH (<[k := get o ((k + 1) * (a_NB a + 2) + 1)]> sw)
               (<[k := get o ((k + 1) * (a_NB a + 2) + a_NB a + 0)]> se))
    as (Hl1 & Hl2 & Hi).
  { intros k' Hk'. rewrite !length_insert. apply Hlen. by right. }
  rewrite !length_insert in Hl1, Hl2. split; [done |]. split; [done |].
  intros i. destruct (Hi i) as [Hin Hout]. split.
  - intros [-> | Hel]%elem_of_cons; [| by apply Hin].
    destruct (Hout Hk) as [-> ->]. by rewrite !list_lookup_insert_eq by lia.
  - intros [Hne Hnel]%not_elem_of_cons.
    destruct (Hout Hnel) as [-> ->]. by rewrite !list_lookup_insert_ne by done.
Qed.

(** The unpack loop writes row [i] of the two ghost columns from entry [i]
    of the two receive buffers. *)
Lemma unpack_ghost_columns a (rw re o : list T) i :
  length o = (a_NB a + 2) * (a_MB a + 2) ->
  i < a_MB a ->
  get (unpack a rw re o) ((i + 1) * (a_NB a + 2)) = get rw i /\
  get (unpack a rw re o) ((i + 1) * (a_NB a + 2) + a_NB a + 1) = get re i.
Proof.
  intros Hlo Hi. unfold unpack.
  assert (Hgen : forall l (o : list T),
    length o = (a_NB a + 2) * (a_MB a + 2) -> NoDup l ->
    (forall k, k ∈ l -> k < a_MB a) -> i ∈ l ->
    let o' := foldl (fun o i =>
                 <[(i + 1) * (a_NB a + 2) + a_NB a + 1 := get re i]>
                   (<[(i + 1) * (a_NB a + 2) := get rw i]> o)) o l in
    get o' ((i + 1) * (a_NB a + 2)) = get rw i /\
    get o' ((i + 1) * (a_NB a + 2) + a_NB a + 1) = get re i).
  { induction l as [|k l IH] using rev_ind; intros o0 Hl0 Hnd Hb Hin.
    { by apply elem_of_nil in Hin. }
    rewrite foldl_app. simpl.
    apply NoDup_app in Hnd as (Hnd & Hdis & _).
    set (o1 := foldl _ o0 l).
    assert (Hl1 : length o1 = (a_NB a + 2) * (a_MB a + 2)).
    { subst o1. clear -Hl0. revert o0 Hl0.
      induction l as [|x l IHl]; intros o0 Hl0; simpl; [done |].
      apply IHl. by rewrite !length_insert. }
    assert (Hk : k < a_MB a) by (apply Hb, elem_of_app; right; left).
    destruct (decide (i = k)) as [<- | Hne].
    - split.
      + rewrite get_insert_ne by lia. apply get_insert_eq. rewrite Hl1. nia.
      + apply get_insert_eq. rewrite length_insert, Hl1. nia.
    - apply elem_of_app in Hin as [Hin | Hin%list_elem_of_singleton]; [| done].
      destruct (IH o0 Hl0 Hnd) as [IHw IHe]; [| done |].
      { intros k' Hk'. apply Hb, elem_of_app. by left. }
      fold o1 in IHw, IHe. split.
      + rewrite !get_insert_ne; [done | |].
        * intros Heq. destruct (divmod_unique (a_NB a + 2) 0 (k + 1) 0 (i + 1)); lia.
        * intros Heq.
          destruct (divmod_unique (a_NB a + 2) (a_NB a + 1) (k + 1) 0 (i + 1)); lia.
      + rewrite !get_insert_ne; [done | |].
        * intros Heq.
          destruct (divmod_unique (a_NB a + 2) 0 (k + 1) (a_NB a + 1) (i + 1)); lia.
        * intros Heq.
          destruct (divmod_unique (a_NB a + 2) (a_NB a + 1) (k + 1)
                      (a_NB a + 1) (i + 1)); lia. }
  apply Hgen; [done | apply NoDup_seq | |].
  - intros k Hk%list_elem_of_In%in_seq. lia.
  - apply list_elem_of_In, in_seq. lia.
Qed.

Lemma haloed_ghost_columns a w st i :
  length (load (hp st) (om st)) = (a_NB a + 2) * (a_MB a + 2) ->
  i < a_MB a ->
  get (haloed a w st) ((i + 1) * (a_NB a + 2)) = get (recv_west' a w st) i /\
  get (haloed a w st) ((i + 1) * (a_NB a + 2) + a_NB a + 1) = get (recv_east' a w st) i.
Proof.
  intros Hlen Hi. unfold haloed. apply unpack_ghost_columns; [| done].
  destruct (has_south a), (has_north a); by rewrite ?write_at_length.
Qed.

Lemma received_into (msg buf : list T) n i :
  n <= length msg -> length buf = n -> i < n ->
  get (write_at 0 (take n msg) buf) i = get msg i.
Proof.
  intros Hmsg Hbuf Hi. unfold get.
  pose proof (write_at_lookup_in (take n msg) 0 buf i) as Hin. simpl in Hin.
  rewrite Hin.
  - by rewrite lookup_take_lt.
  - rewrite length_take. lia.
  - lia.
Qed.

Lemma pack_takes_interior_columns_aux a w st :
  1 <= a_NB a ->
  length (send_west st) = a_MB a ->
  length (send_east st) = a_MB a ->
  let o := load (hp st) (om st) in
  let st' := halo_exchange a w st in
  send_west st' = map (fun j => get o (idx (a_NB a) 0 j)) (seq 0 (a_MB a)) /\
  send_east st' = map (fun j => get o (idx (a_NB a) (a_NB a - 1) j)) (seq 0 (a_MB a)).
Proof.
  intros Hnb Hsw Hse o st'. subst st'. simpl. fold o.
  destruct (pack_over a o (seq 0 (a_MB a)) (NoDup_seq 0 (a_MB a))
              (send_west st) (send_east st)) as (Hl1 & Hl2 & Hi).
  { intros k Hk%list_elem_of_In%in_seq. lia. }
  fold (pack a o (send_west st) (send_east st)) in Hl1, Hl2, Hi.
  split; apply list_eq; intros j.
  - destruct (decide (j < a_MB a)) as [Hj | Hj].
    + destruct (Hi j) as [[-> _] _]; [apply list_elem_of_In, in_seq; lia |].
      rewrite list_lookup_fmap, lookup_seq_lt by done. simpl.
      do 2 f_equal. unfold idx. lia.
    + rewrite !lookup_ge_None_2; [done | |]; rewrite ?length_map, ?length_seq; lia.
  - destruct (decide (j < a_MB a)) as [Hj | Hj].
    + destruct (Hi j) as [[_ ->] _]; [apply list_elem_of_In, in_seq; lia |].
      rewrite list_lookup_fmap, lookup_seq_lt by done. simpl.
      do 2 f_equal. unfold idx. lia.
    + rewrite !lookup_ge_None_2; [done | |]; rewrite ?length_map, ?length_seq; lia.
Qed.

(** X6.  After the pack loop [send_west] holds the first interior column of
    the source buffer and [send_east] the last one, row by row; neither
    holds a ghost cell. *)
Theorem pack_takes_interior_columns a w st :
  1 <= a_NB a ->
  length (send_west st) = a_MB a ->
  length (send_east st) = a_MB a ->
  let o := load (hp st) (om st) in
  let st' := halo_exchange a w st in
  send_west st' = map (fun j => get o (idx (a_NB a) 0 j)) (seq 0 (a_MB a)) /\
  send_east st' = map (fun j => get o (idx (a_NB a) (a_NB a - 1) j)) (seq 0 (a_MB a)).
Proof. apply pack_takes_interior_columns_aux. Qed.

(** X7.  With an east (west) neighbour whose message carries MB values, the
    exchange leaves in row j of the east (west) ghost column of the source
    buffer the j-th value of that message. *)
Theorem exchange_fills_ghost_columns a w st j :
  is_Some (block (hp st) (om st)) ->
  length (load (hp st) (om st)) = (a_NB a + 2) * (a_MB a + 2) ->
  length (recv_east st) = a_MB a ->
  length (recv_west st) = a_MB a ->
  j < a_MB a ->
  let o' := load (hp (halo_exchange a w st)) (om st) in
  (has_east a = true -> a_MB a <= length (w_recv w (iter st) East) ->
   get o' ((j + 1) * (a_NB a + 2) + a_NB a + 1) = get (w_recv w (iter st) East) j) /\
  (has_west a = true -> a_MB a <= length (w_recv w (iter st) West) ->
   get o' ((j + 1) * (a_NB a + 2)) = get (w_recv w (iter st) West) j).
Proof.
  intros Hlive Hlen Hre Hrw Hj o'. subst o'. simpl. rewrite load_store_eq by done.
  destruct (haloed_ghost_columns a w st j Hlen Hj) as [Hw He].
  split.
  - intros Heast Hmsg. rewrite He. unfold recv_east', received. rewrite Heast.
    by apply received_into.
  - intros Hwest Hmsg. rewrite Hw. unfold recv_west', received. rewrite Hwest.
    by apply received_into.
Qed.

(** X8.  Pack on one process and unpack on its east neighbour compose: when
    the message the neighbour receives from the west is the [send_east] the
    first process packed, the neighbour's west ghost column becomes the
    first process's last interior column. *)
Theorem east_send_lands_in_west_ghost a1 w1 st1 a2 w2 st2 j :
  a_NB a2 = a_NB a1 -> a_MB a2 = a_MB a1 ->
  1 <= a_NB a1 ->
  length (send_west st1) = a_MB a1 ->
  length (send_east st1) = a_MB a1 ->
  is_Some (block (hp st2) (om st2)) ->
  length (load (hp st2) (om st2)) = (a_NB a2 + 2) * (a_MB a2 + 2) ->
  length (recv_west st2) = a_MB a2 ->
  has_west a2 = true ->
  w_recv w2 (iter st2) West = send_east (halo_exchange a1 w1 st1) ->
  j < a_MB a1 ->
  get (load (hp (halo_exchange a2 w2 st2)) (om st2)) ((j + 1) * (a_NB a2 + 2))
  = get (load (hp st1) (om st1)) (idx (a_NB a1) (a_NB a1 - 1) j).
Proof.
  intros HNB HMB Hnb Hsw Hse Hlive Hlen Hrw Hwest Hmsg Hj.
  destruct (pack_takes_interior_columns_aux a1 w1 st1 Hnb Hsw Hse) as [_ Hsent].
  simpl. rewrite load_store_eq by done.
  destruct (haloed_ghost_columns a2 w2 st2 j Hlen) as [Hw _]; [lia |].
  rewrite Hw. unfold recv_west', received. rewrite Hwest, Hmsg, Hsent.
  rewrite received_into.
  - unfold get. rewrite list_lookup_fmap, lookup_seq_lt by done. done.
  - rewrite length_map, length_seq. lia.
  - done.
  - lia.
Qed.

End HaloMore.

(** ** More about the run *)

Section RunMore.
Context {T : Type} `{Scalar T}.
Implicit Types (st : state T) (a : args T) (w : world T).

Lemma iteration_load a w st :
  om st <> nm st ->
  is_Some (block (hp st) (om st)) ->
  is_Some (block (hp st) (nm st)) ->
  load (hp (iteration a w st)) (om st) = haloed a w st /\
  load (hp (iteration a w st)) (nm st) =
    (SOR1 (load (hp st) (nm st)) (haloed a w st) (a_NB a) (a_MB a)).1.
Proof.
  intros Hne Hom Hnm. rewrite iteration_hp. cbv zeta.
  assert (Hnm' : is_Some (block (store (hp st) (om st) (haloed a w st)) (nm st))).
  { by rewrite block_store_ne. }
  split.
  - rewrite load_store_ne by done. by apply load_store_eq.
  - rewrite load_store_eq by done.
    rewrite (load_store_ne _ (om st) (nm st)) by done.
    by rewrite load_store_eq.
Qed.

Lemma reachable a w k :
  let st := Nat.iter k (iteration a w) (init a w) in
  om st <> nm st /\
  is_Some (block (hp st) (om st)) /\ is_Some (block (hp st) (nm st)) /\
  (om st = Matrix <-> Nat.even k = true) /\
  (om st = Matrix /\ nm st = Fresh \/ om st = Fresh /\ nm st = Matrix).
Proof.
  intros st. destruct (pointers_after a w k) as (Hp & Hm & Hf). fold st in Hp, Hm, Hf.
  destruct (Nat.even k); injection Hp as -> ->; simpl; repeat split; eauto; done.
Qed.

Lemma haloed_ghost_rows a w st q :
  has_north a = false -> has_south a = false ->
  q < a_NB a + 2 \/ (a_MB a + 1) * (a_NB a + 2) <= q ->
  haloed a w st !! q = load (hp st) (om st) !! q.
Proof.
  intros Hn Hs Hq. unfold haloed. rewrite Hn, Hs.
  apply unpack_lookup_other. intros i Hi. nia.
Qed.

Lemma ghost_rows_outside_interior nb mb q :
  q < nb + 2 \/ (mb + 1) * (nb + 2) <= q -> q ∉ interior nb mb.
Proof. intros Hq Hin%interior_bounds. nia. Qed.

(** X9.  On a process with no north and no south neighbour the run never
    changes the north and south ghost rows, corners included, of either
    buffer: after any number of turns the caller's matrix still has the rows
    the caller gave it and the block from calloc still has zeros there. *)
Theorem ghost_rows_are_kept a w k q :
  has_north a = false -> has_south a = false ->
  q < a_NB a + 2 \/ (a_MB a + 1) * (a_NB a + 2) <= q ->
  let st := Nat.iter k (iteration a w) (init a w) in
  load (hp st) Matrix !! q = a_matrix a !! q /\
  load (hp st) Fresh !! q =
    replicate ((a_NB a + 2) * (a_MB a + 2)) (#0)%sc !! q.
Proof.
  intros Hn Hs Hq. induction k as [|k IH]; [done |].
  rewrite Nat.iter_succ. cbv zeta in *.
  set (st := Nat.iter k (iteration a w) (init a w)) in *.
  destruct (reachable a w k) as (Hne & Hom & Hnm & _ & Hcase). fold st in Hne, Hom, Hnm, Hcase.
  destruct (iteration_load a w st Hne Hom Hnm) as [Ho Hd].
  destruct IH as [IHm IHf].
  assert (Hsrc : haloed a w st !! q = load (hp st) (om st) !! q)
    by by apply haloed_ghost_rows.
  assert (Hdst : (SOR1 (load (hp st) (nm st)) (haloed a w st) (a_NB a) (a_MB a)).1 !! q
                 = load (hp st) (nm st) !! q)
    by by apply SOR1_ghost, ghost_rows_outside_interior.
  destruct Hcase as [[Eo En] | [Eo En]]; rewrite Eo, En in *;
    by rewrite Ho, Hd, Hsrc, Hdst.
Qed.

(** X10.  The two pointers never alias and both blocks stay allocated
    while the loop runs: after k turns [om] is the caller's matrix when k
    is even and the block from calloc when k is odd, and [nm] is the other
    one. *)
Theorem buffers_alternate a w k :
  let st := Nat.iter k (iteration a w) (init a w) in
  om st <> nm st /\
  is_Some (block (hp st) Matrix) /\ is_Some (block (hp st) Fresh) /\
  (Nat.even k = true -> om st = Matrix /\ nm st = Fresh) /\
  (Nat.even k = false -> om st = Fresh /\ nm st = Matrix) /\
  iter st = Z.of_nat k.
Proof.
  intros st. destruct (pointers_after a w k) as (Hp & Hm & Hf). fold st in Hp, Hm, Hf.
  assert (Hit : iter st = Z.of_nat k) by (unfold st; by rewrite iter_turns).
  destruct (Nat.even k); injection Hp as Ho Hn; rewrite Ho, Hn;
    repeat split; (done || eauto).
Qed.

(** *** The log *)

Lemma iteration_turn_log a w st :
  log (iteration a w st) = log st ++ turn_log a w st.
Proof.
  unfold iteration, turn_log, swap, relax, halo_exchange, with_log. simpl.
  by rewrite <- !(assoc_L (++)).
Qed.

Lemma run_log a w n st :
  log (Nat.iter n (iteration a w) st) =
  log st ++ concat (map (fun k => turn_log a w (Nat.iter k (iteration a w) st)) (seq 0 n)).
Proof.
  induction n as [|n IH]; [by rewrite app_nil_r |].
  rewrite Nat.iter_succ, iteration_turn_log, IH, seq_S, map_app, concat_app.
  simpl. by rewrite app_nil_r, <- (assoc_L (++)).
Qed.

Lemma count_app f (l1 l2 : list (event T)) : count f (l1 ++ l2) = count f l1 + count f l2.
Proof. unfold count. by rewrite filter_app, length_app. Qed.

Lemma count_concat_const f (ls : list (list (event T))) c :
  (forall l, l ∈ ls -> count f l = c) -> count f (concat ls) = length ls * c.
Proof.
  induction ls as [|l ls IH]; intros Hc; simpl; [done |].
  rewrite count_app, (Hc l) by left. rewrite IH; [done |].
  intros l' Hl'. apply Hc. by right.
Qed.

Lemma turn_log_counts a w st :
  count is_waitall (turn_log a w st) = 1 /\
  count is_allreduce (turn_log a w st) = 1 /\
  count is_irecv (turn_log a w st) = neighbours a /\
  count is_isend (turn_log a w st) = neighbours a /\
  count is_print (turn_log a w st) = (if (a_rank a =? 0)%Z then 1 else 0) /\
  count is_png (turn_log a w st) = (if a_save_output a then 1 else 0).
Proof.
  unfold turn_log, diagnostics, halo_events, neighbours.
  destruct (a_rank a =? 0)%Z, (a_save_output a),
    (has_north a), (has_south a), (has_east a), (has_west a); done.
Qed.

Lemma run_count a w f c fuel :
  (forall st, count f (turn_log a w st) = c) ->
  count f (log (init a w)) = 0 ->
  f EvTimings = false -> f EvCommFree = false -> (forall p, f (EvFree p) = false) ->
  Z.to_nat (Z.max 1 (a_max_iter a)) <= fuel ->
  exists st, jacobi_cpu a w fuel = Some (Z.max 1 (a_max_iter a), st) /\
             count f (log st) = Z.to_nat (Z.max 1 (a_max_iter a)) * c.
Proof.
  intros Hc H0 Ht Hcf Hfr Hfuel.
  destruct (jacobi_cpu_returns_turns_aux a w fuel Hfuel) as (_ & Hret).
  eexists. split; [exact Hret |]. simpl.
  rewrite run_log, !count_app, H0, count_concat_const with (c := c).
  - rewrite length_map, length_seq.
    assert (Hend : forall p, count f [EvTimings; EvFree p; EvCommFree; EvCommFree] = 0).
    { intros p. unfold count.
      by rewrite !filter_cons_False by (rewrite ?Ht, ?Hcf, ?Hfr; done). }
    rewrite Hend. lia.
  - intros l (k & -> & _)%list_elem_of_fmap. apply Hc.
Qed.

Lemma turn_log_counts_by_direction a w st d :
  count (is_irecv_from d) (turn_log a w st) = (if has_neighbour a d then 1 else 0) /\
  count (is_isend_to d) (turn_log a w st) = (if has_neighbour a d then 1 else 0).
Proof.
  unfold turn_log, diagnostics, halo_events, has_neighbour.
  destruct d, (a_rank a =? 0)%Z, (a_save_output a),
    (has_north a), (has_south a), (has_east a), (has_west a); done.
Qed.

(** X11.  Every turn of the loop posts one receive and one send per
    neighbour, waits once and reduces once: a run of n = max(1, max_iter)
    turns logs n calls of MPI_Waitall, n of MPI_Allreduce, and as many
    receives as sends, n for each direction with a neighbour and none for a
    direction without. *)
Theorem run_posts_and_waits a w fuel :
  Z.to_nat (Z.max 1 (a_max_iter a)) <= fuel ->
  let n := Z.to_nat (Z.max 1 (a_max_iter a)) in
  exists st,
    jacobi_cpu a w fuel = Some (Z.max 1 (a_max_iter a), st) /\
    count is_waitall (log st) = n /\
    count is_allreduce (log st) = n /\
    count is_irecv (log st) = n * neighbours a /\
    count is_isend (log st) = n * neighbours a /\
    (forall d, count (is_irecv_from d) (log st) = if has_neighbour a d then n else 0) /\
    (forall d, count (is_isend_to d) (log st) = if has_neighbour a d then n else 0).
Proof.
  intros Hfuel n.
  destruct (run_count a w is_waitall 1 fuel) as (st & Hret & Hw);
    [intros st; apply turn_log_counts | done..|].
  destruct (run_count a w is_allreduce 1 fuel) as (st2 & Hret2 & Ha);
    [intros st'; apply turn_log_counts | done..|].
  destruct (run_count a w is_irecv (neighbours a) fuel) as (st3 & Hret3 & Hr);
    [intros st'; apply turn_log_counts | done..|].
  destruct (run_count a w is_isend (neighbours a) fuel) as (st4 & Hret4 & Hs);
    [intros st'; apply turn_log_counts | done..|].
  rewrite Hret in Hret2, Hret3, Hret4.
  injection Hret2 as <-. injection Hret3 as <-. injection Hret4 as <-.
  exists st. fold n in Hw, Ha, Hr, Hs.
  split; [done |]. split; [lia |]. split; [lia |]. split; [lia |]. split; [lia |].
  split; intros d.
  - destruct (run_count a w (is_irecv_from d) (if has_neighbour a d then 1 else 0) fuel)
      as (st5 & Hret5 & Hd); [intros st'; apply turn_log_counts_by_direction | done..|].
    rewrite Hret in Hret5. injection Hret5 as <-. rewrite Hd. fold n.
    destruct (has_neighbour a d); lia.
  - destruct (run_count a w (is_isend_to d) (if has_neighbour a d then 1 else 0) fuel)
      as (st5 & Hret5 & Hd); [intros st'; apply turn_log_counts_by_direction | done..|].
    rewrite Hret in Hret5. injection Hret5 as <-. rewrite Hd. fold n.
    destruct (has_neighbour a d); lia.
Qed.

(** X12.  The diagnostics are gated: the loop prints once per turn on rank
    0 and never on another rank, and it exports a frame once per turn when
    save_output is set and never otherwise. *)
Theorem diagnostics_are_gated a w fuel :
  Z.to_nat (Z.max 1 (a_max_iter a)) <= fuel ->
  let n := Z.to_nat (Z.max 1 (a_max_iter a)) in
  exists st,
    jacobi_cpu a w fuel = Some (Z.max 1 (a_max_iter a), st) /\
    count is_print (log st) = (if (a_rank a =? 0)%Z then n else 0) /\
    count is_png (log st) = (if a_save_output a then n else 0).
Proof.
  intros Hfuel n.
  destruct (run_count a w is_print (if (a_rank a =? 0)%Z then 1 else 0) fuel)
    as (st & Hret & Hp); [intros st; apply turn_log_counts | done..|].
  destruct (run_count a w is_png (if a_save_output a then 1 else 0) fuel)
    as (st2 & Hret2 & Hg); [intros st'; apply turn_log_counts | done..|].
  rewrite Hret in Hret2. injection Hret2 as <-.
  exists st. fold n in Hp, Hg. split; [done |].
  destruct (a_rank a =? 0)%Z, (a_save_output a); split; lia.
Qed.

(** X13.  A process that is alone in the communicator (size 1, rank 0) has
    no neighbour whatever P is, and its run posts no receive and no
    send. *)
Theorem lone_process_posts_nothing a w fuel :
  a_size a = 1%Z -> a_rank a = 0%Z ->
  Z.to_nat (Z.max 1 (a_max_iter a)) <= fuel ->
  neighbours a = 0 /\
  exists st,
    jacobi_cpu a w fuel = Some (Z.max 1 (a_max_iter a), st) /\
    count is_irecv (log st) = 0 /\ count is_isend (log st) = 0.
Proof.
  intros Hsize Hrank Hfuel.
  assert (Hnone : neighbours a = 0).
  { unfold neighbours, has_north, has_south, has_east, has_west,
      ns_rank, ns_size, ew_rank, ew_size, ns_comm, ew_comm.
    rewrite Hsize, Hrank. reflexivity. }
  split; [done |].
  destruct (run_count a w is_irecv (neighbours a) fuel) as (st & Hret & Hr);
    [intros st; apply turn_log_counts | done..|].
  destruct (run_count a w is_isend (neighbours a) fuel) as (st2 & Hret2 & Hs);
    [intros st'; apply turn_log_counts | done..|].
  rewrite Hret in Hret2. injection Hret2 as <-.
  exists st. rewrite Hnone in Hr, Hs. split; [done |]. lia.
Qed.

End RunMore.

(** ** The process grid *)

Section Topology.
Local Open Scope Z_scope.

Lemma sorted_Z_NoDup (l : list Z) : StronglySorted Z.lt l -> NoDup l.
Proof.
  induction 1 as [|x l Hs IH Hall]; constructor; [| done].
  rewrite Forall_forall in Hall. intros Hx. apply Hall in Hx. lia.
Qed.

Lemma sorted_Z_ext (l1 l2 : list Z) :
  StronglySorted Z.lt l1 -> StronglySorted Z.lt l2 ->
  (forall x, x ∈ l1 <-> x ∈ l2) -> l1 = l2.
Proof.
  intros H1 H2 Hel. apply (StronglySorted_unique_strong Z.lt); [| done | done |].
  - intros x y _ _ Hxy Hyx. lia.
  - apply NoDup_Permutation; [by apply sorted_Z_NoDup.. | done].
Qed.

Lemma seqZ_sorted m n : StronglySorted Z.lt (seqZ m n).
Proof.
  unfold seqZ. apply (StronglySorted_fmap _ lt Z.lt); [intros x y Hxy; lia |].
  generalize 0%nat. induction (Z.to_nat n) as [|k IH]; intros s; simpl; constructor.
  - apply IH.
  - apply Forall_forall. intros y Hy%list_elem_of_In%in_seq. lia.
Qed.

Lemma filter_sorted (P : Z -> Prop) `{forall x, Decision (P x)} (l : list Z) :
  StronglySorted Z.lt l -> StronglySorted Z.lt (filter P l).
Proof.
  induction 1 as [|x l Hs IH Hall]; [constructor |].
  rewrite filter_cons. destruct (decide (P x)); [| done].
  constructor; [done |]. rewrite Forall_forall in *.
  intros y [_ Hy]%list_elem_of_filter. by apply Hall.
Qed.

Lemma comm_split_group size color rank :
  comm_split size color rank =
  (Z.of_nat (length (comm_group size color rank)),
   Z.of_nat (length (filter (fun r => r < rank) (comm_group size color rank)))).
Proof. done. Qed.

Lemma below_in_group size color rank :
  0 <= rank < size ->
  filter (fun r => r < rank) (comm_group size color rank) =
  filter (fun r => color r = color rank) (seqZ 0 rank).
Proof.
  intros Hr. apply sorted_Z_ext.
  - apply filter_sorted, filter_sorted, seqZ_sorted.
  - apply filter_sorted, seqZ_sorted.
  - intros x. unfold comm_group.
    rewrite !list_elem_of_filter, !elem_of_seqZ. intuition lia.
Qed.

(** The ranks below [n] in one column of a grid [P] wide. *)
Lemma column_below P c n :
  0 < P -> 0 <= c < P -> 0 <= n ->
  filter (fun r => Z.rem r P = c) (seqZ 0 n) =
  (fun k => k * P + c) <$> seqZ 0 ((n - c + P - 1) / P).
Proof.
  intros HP Hc Hn.
  pose proof (Z.div_mod (n - c + P - 1) P ltac:(lia)) as Hdm.
  pose proof (Z.mod_pos_bound (n - c + P - 1) P HP) as Hmb.
  set (m := (n - c + P - 1) / P) in *.
  apply sorted_Z_ext.
  - apply filter_sorted, seqZ_sorted.
  - apply (StronglySorted_fmap _ Z.lt Z.lt); [intros x y Hxy; nia | apply seqZ_sorted].
  - intros x. rewrite list_elem_of_filter, list_elem_of_fmap, elem_of_seqZ. split.
    + intros [Hrem Hx]. rewrite Z.rem_mod_nonneg in Hrem by lia.
      pose proof (Z.div_mod x P ltac:(lia)) as Hx'.
      exists (x / P). split; [lia |]. apply elem_of_seqZ.
      assert (0 <= x / P) by (apply Z.div_pos; lia). nia.
    + intros (k & -> & Hk%elem_of_seqZ). split.
      * rewrite Z.rem_mod_nonneg by nia.
        rewrite Z.add_comm, Z.mod_add by lia. apply Z.mod_small. lia.
      * nia.
Qed.

(** The ranks below [n] in the row of [rank]. *)
Lemma row_below P rank n :
  0 < P -> 0 <= rank -> 0 <= n ->
  filter (fun r => Z.quot r P = Z.quot rank P) (seqZ 0 n) =
  seqZ (rank / P * P) (Z.max 0 (Z.min P (n - rank / P * P))).
Proof.
  intros HP Hr Hn.
  assert (Hq : 0 <= rank / P) by (apply Z.div_pos; lia).
  apply sorted_Z_ext.
  - apply filter_sorted, seqZ_sorted.
  - apply seqZ_sorted.
  - intros x. rewrite list_elem_of_filter, !elem_of_seqZ.
    rewrite (Z.quot_div_nonneg rank) by lia. split.
    + intros [Hquot Hx]. rewrite Z.quot_div_nonneg in Hquot by lia.
      pose proof (Z.div_mod x P ltac:(lia)) as Hx'.
      pose proof (Z.mod_pos_bound x P HP). rewrite Hquot in Hx'. lia.
    + intros Hx. assert (0 <= x) by nia. split; [| lia].
      rewrite Z.quot_div_nonneg by lia.
      symmetry. apply (Z.div_unique x P (rank / P) (x - rank / P * P)); lia.
Qed.

Lemma grid_position_aux {T : Type} `{Scalar T} (a : args T) :
  0 < a_P a -> 0 <= a_rank a < a_size a ->
  ns_rank a = a_rank a / a_P a /\
  ew_rank a = a_rank a mod a_P a /\
  ns_size a = (a_size a - a_rank a mod a_P a + a_P a - 1) / a_P a /\
  ew_size a = Z.min (a_P a) (a_size a - a_rank a / a_P a * a_P a).
Proof.
  intros HP Hr.
  pose proof (Z.div_mod (a_rank a) (a_P a) ltac:(lia)) as Hdm.
  pose proof (Z.mod_pos_bound (a_rank a) (a_P a) HP) as Hmb.
  assert (Hq : 0 <= a_rank a / a_P a) by (apply Z.div_pos; lia).
  unfold ns_rank, ns_size, ew_rank, ew_size, ns_comm, ew_comm.
  rewrite !comm_split_group. simpl.
  rewrite !below_in_group by done. unfold comm_group.
  rewrite (Z.rem_mod_nonneg (a_rank a)) by lia.
  rewrite !column_below, !row_below by lia.
  rewrite !length_fmap, !length_seqZ, !Z2Nat.id; [| first [lia | apply Z.div_pos; lia]..].
  - repeat split; try lia.
    symmetry. apply (Z.div_unique _ (a_P a) _ (a_P a - 1)); lia.
Qed.

End Topology.

Section TopologyClaims.
Context {T : Type} `{Scalar T}.
Local Open Scope Z_scope.

(** X14.  Whatever the size of the communicator, a process of rank r sits
    at position r / P of its column group and r mod P of its row group.  Its
    row group has P members, or fewer in a last row that the size leaves
    incomplete; its column group has one member per row that reaches its
    column. *)
Theorem grid_position (a : args T) :
  0 < a_P a -> 0 <= a_rank a < a_size a ->
  ns_rank a = a_rank a / a_P a /\
  ew_rank a = a_rank a mod a_P a /\
  ns_size a = (a_size a - a_rank a mod a_P a + a_P a - 1) / a_P a /\
  ew_size a = Z.min (a_P a) (a_size a - a_rank a / a_P a * a_P a).
Proof. apply grid_position_aux. Qed.

(** X15.  On a full grid of Q rows of P processes the column groups have Q
    members and the row groups P; a process has a north neighbour unless it
    is in row 0, a south one unless in row Q-1, a west one unless in column
    0, an east one unless in column P-1; and the group ranks it posts to,
    one below and one above its own, are the processes of rank r-P, r+P,
    r-1 and r+1 of the whole communicator. *)
Theorem full_grid_neighbours (a : args T) (Q : Z) :
  0 < a_P a -> a_size a = a_P a * Q -> 0 <= a_rank a < a_size a ->
  let r := a_rank a in
  let row := r / a_P a in
  let col := r mod a_P a in
  let column_group := comm_group (a_size a) (fun r => Z.rem r (a_P a)) r in
  let row_group := comm_group (a_size a) (fun r => Z.quot r (a_P a)) r in
  ns_size a = Q /\ ew_size a = a_P a /\
  (has_north a = true <-> 0 < row) /\
  (has_south a = true <-> row < Q - 1) /\
  (has_west a = true <-> 0 < col) /\
  (has_east a = true <-> col < a_P a - 1) /\
  (0 < row -> column_group !! Z.to_nat (ns_rank a - 1) = Some (r - a_P a)) /\
  (row < Q - 1 -> column_group !! Z.to_nat (ns_rank a + 1) = Some (r + a_P a)) /\
  (0 < col -> row_group !! Z.to_nat (ew_rank a - 1) = Some (r - 1)) /\
  (col < a_P a - 1 -> row_group !! Z.to_nat (ew_rank a + 1) = Some (r + 1)).
Proof.
  intros HP Hsize Hr r row col column_group row_group.
  destruct (grid_position_aux a HP Hr) as (Hnr & Her & Hns & Hes).
  pose proof (Z.div_mod (a_rank a) (a_P a) ltac:(lia)) as Hdm.
  pose proof (Z.mod_pos_bound (a_rank a) (a_P a) HP) as Hmb.
  assert (Hq : 0 <= a_rank a / a_P a) by (apply Z.div_pos; lia).
  fold r row col in Hnr, Her, Hns, Hes, Hdm, Hmb, Hq.
  assert (HQ : row < Q) by nia.
  assert (Hns' : ns_size a = Q).
  { rewrite Hns, Hsize. symmetry.
    apply (Z.div_unique _ (a_P a) _ (a_P a - 1 - col)); lia. }
  assert (Hes' : ew_size a = a_P a) by (rewrite Hes, Hsize; nia).
  assert (Hcg : column_group = (fun k => k * a_P a + col) <$> seqZ 0 Q).
  { unfold column_group, comm_group.
    rewrite (Z.rem_mod_nonneg r) by lia. fold col.
    rewrite column_below by lia. do 2 f_equal.
    rewrite Hsize. symmetry.
    apply (Z.div_unique _ (a_P a) _ (a_P a - 1 - col)); lia. }
  assert (Hrg : row_group = seqZ (row * a_P a) (a_P a)).
  { unfold row_group, comm_group. rewrite row_below by lia. fold row.
    f_equal. rewrite Hsize. nia. }
  split; [done |]. split; [done |].
  unfold has_north, has_south, has_east, has_west.
  rewrite Hns', Hes', Hnr, Her.
  repeat split; try (rewrite negb_true_iff, Z.eqb_neq; lia).
  - intros Hrow. rewrite Hcg, list_lookup_fmap, lookup_seqZ_lt by lia.
    simpl. f_equal. rewrite Z2Nat.id by lia. lia.
  - intros Hrow. rewrite Hcg, list_lookup_fmap, lookup_seqZ_lt by lia.
    simpl. f_equal. rewrite Z2Nat.id by lia. lia.
  - intros Hcol. rewrite Hrg, lookup_seqZ_lt by lia.
    f_equal. rewrite Z2Nat.id by lia. lia.
  - intros Hcol. rewrite Hrg, lookup_seqZ_lt by lia.
    f_equal. rewrite Z2Nat.id by lia. lia.
Qed.

End TopologyClaims.

Section PrintClaims.
Context {T : Type} `{Scalar T}.
Implicit Types (st : state T) (a : args T) (w : world T).

Lemma filter_concat_singletons {A B} (P : B -> Prop) `{forall x, Decision (P x)}
    (g : A -> list B) (h : A -> B) (l : list A) :
  (forall x, x ∈ l -> filter P (g x) = [h x]) ->
  filter P (concat (map g l)) = map h l.
Proof.
  induction l as [|x l IH]; intros Hg; simpl; [done |].
  rewrite filter_app, (Hg x) by left. simpl. f_equal.
  apply IH. intros y Hy. apply Hg. by right.
Qed.

(** X16.  On rank 0 the prints of a run are, in order, one per turn
    k = 0, ..., n-1, each showing the epsilon argument and the square root
    of diff_norm as the turn finds it: unassigned in turn 0, and in turn k+1
    the result of the reduction of turn k applied to the value SOR1 returned
    in that turn. *)
Theorem rank_0_prints a w fuel :
  a_rank a = 0%Z ->
  Z.to_nat (Z.max 1 (a_max_iter a)) <= fuel ->
  let n := Z.to_nat (Z.max 1 (a_max_iter a)) in
  let turn k := Nat.iter k (iteration a w) (init a w) in
  (exists st,
     jacobi_cpu a w fuel = Some (Z.max 1 (a_max_iter a), st) /\
     filter (fun e => is_print e = true) (log st) =
       map (fun k => EvPrint (Z.of_nat k) (s_sqrt <$> diff_norm (turn k)) (a_epsilon a))
           (seq 0 n)) /\
  diff_norm (turn 0) = None /\
  forall k, diff_norm (turn (S k)) =
            Some (w_allreduce w (Z.of_nat k)
                    (SOR1 (load (hp (turn k)) (nm (turn k))) (haloed a w (turn k))
                          (a_NB a) (a_MB a)).2).
Proof.
  intros Hrank Hfuel n turn. split; [| split; [done |]].
  - destruct (jacobi_cpu_returns_turns_aux a w fuel Hfuel) as (_ & Hret).
    eexists. split; [exact Hret |]. fold n. simpl.
    rewrite run_log, !filter_app.
    rewrite (filter_concat_singletons _ _
               (fun k => EvPrint (Z.of_nat k) (s_sqrt <$> diff_norm (turn k)) (a_epsilon a))).
    + simpl. by rewrite app_nil_r.
    + intros k _. fold (turn k).
      unfold turn_log, diagnostics, halo_events.
      replace (a_rank a =? 0)%Z with true by (symmetry; by apply Z.eqb_eq).
      replace (iter (turn k)) with (Z.of_nat k) by (unfold turn; by rewrite iter_turns).
      destruct (a_save_output a), (has_north a), (has_south a),
        (has_east a), (has_west a); done.
  - intros k. unfold turn at 1. rewrite Nat.iter_succ. fold (turn k).
    destruct (reachable a w k) as (Hne & Hom & Hnm & _). fold (turn k) in Hne, Hom, Hnm.
    unfold iteration, swap, relax. simpl.
    rewrite load_store_ne, load_store_eq by done.
    do 2 f_equal. unfold turn. by rewrite iter_turns.
Qed.

End PrintClaims.

(** ** The frame exporter *)

Section PngClaims.
Context {T : Type} `{Scalar T} `{Shade T}.

Lemma pixel_length (v : T) : length (pixel v) = 3.
Proof. unfold pixel. by destruct (shade v) as [[r g] b]. Qed.

Lemma concat_pixels_length (f : nat -> T) (l : list nat) :
  length (concat (map (fun i => pixel (f i)) l)) = length l * 3.
Proof.
  induction l as [|i l IHl]; [done |]. cbn [map concat].
  rewrite length_app, pixel_length, IHl. simpl. lia.
Qed.

Lemma png_row_over (matrix : list T) nb j n (row : list Z) :
  length row = 3 * nb -> n <= nb ->
  foldl (fun row i =>
           let pos := (j + 1) * (nb + 2) + 1 + i in
           let '(r, g, b) := shade (get matrix pos) in
           <[i * 3 + 2 := (b mod 256)%Z]>
             (<[i * 3 + 1 := (g mod 256)%Z]>
                (<[i * 3 + 0 := (r mod 256)%Z]> row)))
        row (seq 0 n)
  = concat (map (fun i => pixel (get matrix (idx nb i j))) (seq 0 n)) ++ drop (3 * n) row.
Proof.
  intros Hlen. induction n as [|n IH]; intros Hn.
  { simpl. by rewrite drop_0. }
  rewrite seq_S, foldl_app, IH by lia.
  rewrite map_app, concat_app. cbn [foldl map concat Nat.add]. rewrite app_nil_r.
  set (A := concat (map (fun i => pixel (get matrix (idx nb i j))) (seq 0 n))).
  assert (HA : length A = n * 3).
  { subst A.
    by rewrite (concat_pixels_length (fun i => get matrix (idx nb i j))), length_seq. }
  replace ((j + 1) * (nb + 2) + 1 + n) with (idx nb n j) by (unfold idx; lia).
  unfold pixel. destruct (shade (get matrix (idx nb n j))) as [[r g] b].
  assert (Hd : length (drop (3 * n) row) = 3 * nb - 3 * n) by (rewrite length_drop; lia).
  assert (Hrest : drop 3 (drop (3 * n) row) = drop (3 * S n) row).
  { rewrite drop_drop. f_equal. lia. }
  destruct (drop (3 * n) row) as [|x0 [|x1 [|x2 rest]]]; simpl in Hd; try lia.
  rewrite <- Hrest. change (drop 3 (x0 :: x1 :: x2 :: rest)) with rest.
  rewrite !insert_app_r_alt by (rewrite ?length_app, ?length_insert; lia).
  rewrite HA. replace (n * 3 + 0 - n * 3) with 0 by lia.
  replace (n * 3 + 1 - n * 3) with 1 by lia.
  replace (n * 3 + 2 - n * 3) with 2 by lia.
  simpl. by rewrite <- (assoc_L (++)).
Qed.

(** X17.  The image create_png hands to libpng has MB rows of 3*NB bytes,
    and the three bytes of cell i of row j are the colour of the interior
    cell (i,j) of the matrix: every byte of the malloc'ed rows is written,
    and no ghost cell is shown. *)
Theorem png_rows_show_the_interior (matrix : list T) nb mb (fresh : nat -> list Z) :
  png_rows matrix nb mb fresh =
    map (fun j => concat (map (fun i => pixel (get matrix (1 + i + (j + 1) * (nb + 2))))
                              (seq 0 nb)))
        (seq 0 mb) /\
  length (png_rows matrix nb mb fresh) = mb /\
  forall row, row ∈ png_rows matrix nb mb fresh -> length row = 3 * nb.
Proof.
  assert (Hrows : png_rows matrix nb mb fresh =
    map (fun j => concat (map (fun i => pixel (get matrix (idx nb i j))) (seq 0 nb)))
        (seq 0 mb)).
  { unfold png_rows. apply map_ext. intros j. unfold png_row.
    rewrite png_row_over by (rewrite ?length_resize; lia).
    rewrite drop_ge by (rewrite length_resize; lia). by rewrite app_nil_r. }
  split; [exact Hrows |]. split.
  - unfold png_rows. by rewrite length_map, length_seq.
  - rewrite Hrows. intros row (j & -> & _)%list_elem_of_fmap.
    rewrite (concat_pixels_length (fun i => get matrix (idx nb i j))), length_seq. lia.
Qed.

End PngClaims.

(** ** More concrete runs *)

Section MoreRunFacts.
Import PrimFloat.

(** The colour of a few binary64 values. *)
Lemma shade_binary64_samples :
  map shade [(-25)%float; (-20)%float; 0%float; 10%float; 20%float; 1000%float]
  = [(0, 0, 255); (0, 0, 255); (127, 0, 128); (191, 0, 64); (255, 0, 0); (255, 0, 0)]%Z.
Proof. vm_compute. reflexivity. Qed.

Lemma SOR1_empty_extent_witness :
  SOR1 (replicate 4 1%float) (replicate 4 2%float) 0 0 = (replicate 4 1%float, 0%float).
Proof.
  exact (SOR1_empty_extent (replicate 4 1%float) (replicate 4 2%float) 0 0
           (or_introl eq_refl)).
Defined.

Lemma SOR1_overwrites_interior_witness :
  SOR1 (replicate 9 0%float) (uniform_field 1 1 1%float 0%float) 1 1 =
  SOR1 (<[4 := 7%float]> (replicate 9 0%float)) (uniform_field 1 1 1%float 0%float) 1 1.
Proof.
  apply (SOR1_overwrites_interior (replicate 9 0%float)
           (<[4 := 7%float]> (replicate 9 0%float))); [reflexivity |].
  intros q Hq. destruct (decide (q = 4)) as [-> | Hne].
  - exfalso. apply (Hq 0%nat 0%nat); lia.
  - by rewrite list_lookup_insert_ne.
Defined.

Lemma SOR1_ignores_north_west_of_om_witness :
  SOR1 (replicate 9 0%float) (uniform_field 1 1 1%float 0%float) 1 1 =
  SOR1 (replicate 9 0%float)
       [5; 5; 5; 5; 1; 0; 5; 0; 0]%float 1 1.
Proof.
  apply (SOR1_ignores_north_west_of_om (replicate 9 0%float)
           (uniform_field 1 1 1%float 0%float) [5; 5; 5; 5; 1; 0; 5; 0; 0]%float 1 1).
  intros q Hrow Hcol.
  destruct q as [|[|[|[|[|[|[|[|[|q]]]]]]]]]; simpl in Hrow, Hcol; try lia; try done.
Defined.

Lemma pack_takes_interior_columns_witness :
  send_west (halo_exchange (run_pair 0) still_world (init (run_pair 0) still_world))
    = [3%float] /\
  send_east (halo_exchange (run_pair 0) still_world (init (run_pair 0) still_world))
    = [3%float].
Proof.
  apply (pack_takes_interior_columns (run_pair 0) still_world
           (init (run_pair 0) still_world)); [simpl; lia | reflexivity | reflexivity].
Defined.

Lemma exchange_fills_ghost_columns_witness :
  get (load (hp (halo_exchange (run_pair 1) pair_world (init (run_pair 1) pair_world)))
            Matrix) 4 = 3%float.
Proof.
  destruct (exchange_fills_ghost_columns (run_pair 1) pair_world
              (init (run_pair 1) pair_world) 0) as [_ Hwest];
    [by eexists | reflexivity | reflexivity | reflexivity | simpl; lia |].
  apply Hwest; [reflexivity | simpl; lia].
Defined.

Lemma east_send_lands_in_west_ghost_witness :
  get (load (hp (halo_exchange (run_pair 1) pair_world (init (run_pair 1) pair_world)))
            Matrix) 4
  = get (a_matrix (run_pair 0)) (idx 2 1 0).
Proof.
  apply (east_send_lands_in_west_ghost
           (run_pair 0) still_world (init (run_pair 0) still_world)
           (run_pair 1) pair_world (init (run_pair 1) pair_world) 0);
    try reflexivity; try (simpl; lia). by eexists.
Defined.

Lemma ghost_rows_are_kept_witness :
  load (hp (Nat.iter 2 (iteration (run_1x1 3) still_world) (init (run_1x1 3) still_world)))
       Matrix !! 1%nat = Some 0%float.
Proof.
  destruct (ghost_rows_are_kept (run_1x1 3) still_world 2 1) as [Hm _];
    [reflexivity | reflexivity | simpl; lia |].
  rewrite Hm. reflexivity.
Defined.

Lemma run_posts_and_waits_witness :
  exists st,
    jacobi_cpu run_3_by_2 crowded_world 1 = Some (1%Z, st) /\
    count is_waitall (log st) = 1 /\ count is_allreduce (log st) = 1 /\
    count is_irecv (log st) = 2 /\ count is_isend (log st) = 2 /\
    count (is_irecv_from South) (log st) = 1 /\ count (is_isend_to East) (log st) = 1 /\
    count (is_irecv_from North) (log st) = 0 /\ count (is_isend_to West) (log st) = 0.
Proof.
  destruct (run_posts_and_waits run_3_by_2 crowded_world 1)
    as (st & Hret & Hw & Ha & Hr & Hs & Hrd & Hsd).
  - simpl. lia.
  - exists st. split; [exact Hret |]. split; [exact Hw |]. split; [exact Ha |].
    split; [exact Hr |]. split; [exact Hs |].
    split; [exact (Hrd South) |]. split; [exact (Hsd East) |].
    split; [exact (Hrd North) | exact (Hsd West)].
Defined.

Lemma diagnostics_are_gated_witness :
  exists st,
    jacobi_cpu run_2x3_rank_4 crowded_world 2 = Some (2%Z, st) /\
    count is_print (log st) = 0 /\ count is_png (log st) = 2.
Proof.
  destruct (diagnostics_are_gated run_2x3_rank_4 crowded_world 2) as (st & Hret & Hp & Hg).
  - simpl. lia.
  - exists st. split; [exact Hret |]. split; [exact Hp | exact Hg].
Defined.

Lemma lone_process_posts_nothing_witness :
  exists st,
    jacobi_cpu (run_1x1 2) still_world 2 = Some (2%Z, st) /\
    count is_irecv (log st) = 0 /\ count is_isend (log st) = 0.
Proof.
  destruct (lone_process_posts_nothing (run_1x1 2) still_world 2) as (_ & st & Hret & Hrs).
  - reflexivity.
  - reflexivity.
  - simpl. lia.
  - exists st. split; [exact Hret | exact Hrs].
Defined.

Lemma grid_position_witness :
  ns_rank run_3_by_2 = 0%Z /\ ew_rank run_3_by_2 = 0%Z /\
  ns_size run_3_by_2 = 2%Z /\ ew_size run_3_by_2 = 2%Z.
Proof.
  apply (grid_position run_3_by_2); simpl; lia.
Defined.

Lemma full_grid_neighbours_witness :
  ns_size run_2x3_rank_4 = 2%Z /\ ew_size run_2x3_rank_4 = 3%Z /\
  has_north run_2x3_rank_4 = true /\
  comm_group 6 (fun r => Z.rem r 3) 4 !! Z.to_nat (ns_rank run_2x3_rank_4 - 1) = Some 1%Z.
Proof.
  destruct (full_grid_neighbours run_2x3_rank_4 2)
    as (Hns & Hes & Hn & _ & _ & _ & Hnorth & _); [simpl; lia | reflexivity | simpl; lia |].
  split; [exact Hns |]. split; [exact Hes |]. split.
  - apply Hn. reflexivity.
  - apply Hnorth. reflexivity.
Defined.

Lemma rank_0_prints_witness :
  exists st,
    jacobi_cpu (run_1x1 2) still_world 2 = Some (2%Z, st) /\
    exists x, filter (fun e => is_print e = true) (log st) =
              [EvPrint 0 None 0%float; EvPrint 1 (Some x) 0%float].
Proof.
  destruct (rank_0_prints (run_1x1 2) still_world 2) as ((st & Hret & Hp) & _ & _).
  - reflexivity.
  - simpl. lia.
  - exists st. split; [exact Hret |]. eexists. rewrite Hp. reflexivity.
Defined.

End MoreRunFacts.

(** ** Every turn is a stencil pass *)

Section TurnClaims.
Context {T : Type} `{Scalar T}.
Implicit Types (st : state T) (a : args T) (w : world T).

Lemma SOR1_length (nm0 om0 : list T) nb mb :
  length (SOR1 nm0 om0 nb mb).1 = length nm0.
Proof. rewrite SOR1_sweep. apply sweep_length. Qed.

Lemma lengths_after a w k :
  length (a_matrix a) = (a_NB a + 2) * (a_MB a + 2) ->
  let st := Nat.iter k (iteration a w) (init a w) in
  length (load (hp st) Matrix) = (a_NB a + 2) * (a_MB a + 2) /\
  length (load (hp st) Fresh) = (a_NB a + 2) * (a_MB a + 2).
Proof.
  intros Hlen. induction k as [|k IH].
  { simpl. split; [done | apply length_replicate]. }
  rewrite Nat.iter_succ. cbv zeta in *.
  set (st := Nat.iter k (iteration a w) (init a w)) in *.
  destruct (reachable a w k) as (Hne & Hom & Hnm & _ & Hcase).
  fold st in Hne, Hom, Hnm, Hcase.
  destruct (iteration_load a w st Hne Hom Hnm) as [Ho Hd].
  destruct IH as [IHm IHf].
  destruct Hcase as [[Eo En] | [Eo En]]; rewrite Eo, En in *;
    rewrite Ho, Hd, SOR1_length, haloed_length, Eo; done.
Qed.

(** X20.  Every turn of the loop is one stencil pass from the exchanged
    source buffer into the other buffer: with a matrix of (NB+2)*(MB+2)
    cells, after turn k+1 each interior cell of the destination holds the
    stencil value of the source as the exchange of that turn left it, the
    destination is the final iterate of that turn, and its west operand on
    the first column and north operand on the first row are the ghost cells
    that block already had before the turn. *)
Theorem every_turn_is_a_pass a w k i j :
  length (a_matrix a) = (a_NB a + 2) * (a_MB a + 2) ->
  i < a_NB a -> j < a_MB a ->
  let st := Nat.iter k (iteration a w) (init a w) in
  let st' := iteration a w st in
  let src := load (hp st') (om st) in
  let dst := load (hp st) (nm st) in
  let dst' := load (hp st') (nm st) in
  let pos := 1 + i + (j + 1) * (a_NB a + 2) in
  let W := relax_W (a_NB a) in
  src = haloed a w st /\
  final_iterate st' = dst' /\
  get dst' pos =
    ((#1 - W) * get src pos +
     W / #4 * (get dst' (pos - 1) + get src (pos + 1) +
               get dst' (pos - (a_NB a + 2)) + get src (pos + (a_NB a + 2))))%sc /\
  (i = 0 -> get dst' (pos - 1) = get dst (pos - 1)) /\
  (j = 0 -> get dst' (pos - (a_NB a + 2)) = get dst (pos - (a_NB a + 2))).
Proof.
  intros Hlen Hi Hj st st' src dst dst' pos W.
  destruct (reachable a w k) as (Hne & Hom & Hnm & _ & Hcase).
  fold st in Hne, Hom, Hnm, Hcase.
  destruct (iteration_load a w st Hne Hom Hnm) as [Ho Hd].
  fold st' in Ho, Hd. fold src in Ho. fold dst' dst in Hd.
  destruct (lengths_after a w k Hlen) as [Hlm Hlf]. fold st in Hlm, Hlf.
  assert (Hldst : length dst = (a_NB a + 2) * (a_MB a + 2)).
  { unfold dst. destruct Hcase as [[_ ->] | [_ ->]]; done. }
  assert (Hpos : pos = idx (a_NB a) i j) by done.
  split; [done |]. split; [done |].
  rewrite Hd, Ho, Hpos. split; [| split].
  - apply (SOR1_stencil_eq dst (haloed a w st)); [done |].
    apply interior_elem. eauto.
  - intros ->. apply get_ext, SOR1_ghost, west_of_first_column.
  - intros ->. by apply get_ext, SOR1_ghost, north_of_first_row.
Qed.

End TurnClaims.

Section TurnFacts.
Import PrimFloat.

Lemma every_turn_is_a_pass_witness :
  let st := Nat.iter 1 (iteration (run_1x1 3) still_world) (init (run_1x1 3) still_world) in
  final_iterate (iteration (run_1x1 3) still_world st)
    = load (hp (iteration (run_1x1 3) still_world st)) Matrix /\
  get (load (hp (iteration (run_1x1 3) still_world st)) Matrix) 3
    = get (load (hp st) Matrix) 3.
Proof.
  destruct (every_turn_is_a_pass (run_1x1 3) still_world 1 0 0)
    as (_ & Hfin & _ & Hwest & _); [reflexivity | simpl; lia | simpl; lia |].
  split; [exact Hfin | exact (Hwest eq_refl)].
Defined.

End TurnFacts.

Section GhostColumnClaims.
Context {T : Type} `{Scalar T}.
Implicit Types (st : state T) (a : args T) (w : world T).

Lemma recv_buffers_after a w k :
  let st := Nat.iter k (iteration a w) (init a w) in
  (has_east a = false -> recv_east st = recv_east (init a w)) /\
  (has_west a = false -> recv_west st = recv_west (init a w)).
Proof.
  induction k as [|k IH]; [done |].
  rewrite Nat.iter_succ. cbv zeta in *. destruct IH as [IHe IHw].
  split; intros Hno; simpl.
  - unfold recv_east'. rewrite Hno. by apply IHe.
  - unfold recv_west'. rewrite Hno. by apply IHw.
Qed.

(** X19.  On a process without east and west neighbours nothing is ever
    received into recv_east and recv_west, yet every turn unpacks them: in
    each turn row j of the west (east) ghost column of the source buffer
    becomes entry j of recv_west (recv_east) as malloc returned it, whatever
    the buffer held there. *)
Theorem ghost_columns_without_neighbours a w k j :
  has_east a = false -> has_west a = false ->
  length (a_matrix a) = (a_NB a + 2) * (a_MB a + 2) ->
  j < a_MB a ->
  let st := Nat.iter k (iteration a w) (init a w) in
  let src := load (hp (iteration a w st)) (om st) in
  get src ((j + 1) * (a_NB a + 2)) = get (resize (a_MB a) (#0)%sc (w_malloc w West)) j /\
  get src ((j + 1) * (a_NB a + 2) + a_NB a + 1)
    = get (resize (a_MB a) (#0)%sc (w_malloc w East)) j.
Proof.
  intros He Hw Hlen Hj st src.
  destruct (reachable a w k) as (Hne & Hom & Hnm & _ & Hcase).
  fold st in Hne, Hom, Hnm, Hcase.
  destruct (iteration_load a w st Hne Hom Hnm) as [Ho _]. fold src in Ho.
  destruct (lengths_after a w k Hlen) as [Hlm Hlf]. fold st in Hlm, Hlf.
  assert (Hlsrc : length (load (hp st) (om st)) = (a_NB a + 2) * (a_MB a + 2)).
  { destruct Hcase as [[-> _] | [-> _]]; done. }
  destruct (haloed_ghost_columns a w st j Hlsrc Hj) as [Hwc Hec].
  destruct (recv_buffers_after a w k) as [Hre Hrw]. fold st in Hre, Hrw.
  rewrite Ho, Hwc, Hec. unfold recv_west', recv_east'.
  by rewrite He, Hw, (Hre He), (Hrw Hw).
Qed.

End GhostColumnClaims.

Section GhostColumnFacts.
Import PrimFloat.

Lemma ghost_columns_without_neighbours_witness :
  get (load (hp (iteration run_4x4 still_world (init run_4x4 still_world))) Matrix) 11
  = 0%float /\
  get (a_matrix run_4x4) 11 = 10%float.
Proof.
  destruct (ghost_columns_without_neighbours run_4x4 still_world 0 0) as [_ Heast];
    [reflexivity | reflexivity | reflexivity | simpl; lia |].
  split; [| reflexivity].
  transitivity (get (resize (a_MB run_4x4) (#0)%sc (w_malloc still_world East)) 0);
    [exact Heast | reflexivity].
Defined.

End GhostColumnFacts.

Section FrameClaims.
Context {T : Type} `{Scalar T}.
Implicit Types (st : state T) (a : args T) (w : world T).

(** X21.  With save_output set, a run of n turns exports n frames, numbered
    0, ..., n-1: frame k is taken at the start of turn k from the buffer
    under [om], before the exchange, so it shows the caller's matrix for
    k = 0 and the result of pass k afterwards, from the caller's block for
    even k and from the block from calloc for odd k.  The result of the last
    pass is never exported. *)
Theorem frames_show_earlier_iterates a w fuel :
  a_save_output a = true ->
  Z.to_nat (Z.max 1 (a_max_iter a)) <= fuel ->
  let n := Z.to_nat (Z.max 1 (a_max_iter a)) in
  let turn k := Nat.iter k (iteration a w) (init a w) in
  (exists st,
     jacobi_cpu a w fuel = Some (Z.max 1 (a_max_iter a), st) /\
     filter (fun e => is_png e = true) (log st) =
       map (fun k => EvPng (Z.of_nat k) (if Nat.even k then Matrix else Fresh)) (seq 0 n)) /\
  load (hp (turn 0)) Matrix = a_matrix a /\
  (forall k, om (turn k) = (if Nat.even k then Matrix else Fresh) /\
             load (hp (turn k)) (om (turn k)) = final_iterate (turn k)) /\
  loop_exit a w fuel = Some (turn n).
Proof.
  intros Hsave Hfuel n turn.
  assert (Hom : forall k, om (turn k) = if Nat.even k then Matrix else Fresh).
  { intros k. destruct (pointers_after a w k) as (Hp & _). fold (turn k) in Hp.
    destruct (Nat.even k); by injection Hp as -> _. }
  split; [| split; [done | split; [| by apply loop_exit_turns]]].
  - destruct (jacobi_cpu_returns_turns_aux a w fuel Hfuel) as (_ & Hret).
    eexists. split; [exact Hret |]. fold n. simpl.
    rewrite run_log, !filter_app.
    rewrite (filter_concat_singletons _ _
               (fun k => EvPng (Z.of_nat k) (if Nat.even k then Matrix else Fresh))).
    + simpl. by rewrite app_nil_r.
    + intros k _. fold (turn k).
      unfold turn_log, diagnostics, halo_events. rewrite Hsave, (Hom k).
      replace (iter (turn k)) with (Z.of_nat k) by (unfold turn; by rewrite iter_turns).
      destruct (a_rank a =? 0)%Z, (has_north a), (has_south a),
        (has_east a), (has_west a); done.
  - intros k. split; [apply Hom | done].
Qed.

End FrameClaims.

Section FrameFacts.
Import PrimFloat.

Lemma frames_show_earlier_iterates_witness :
  exists st,
    jacobi_cpu run_2x3_rank_4 crowded_world 2 = Some (2%Z, st) /\
    filter (fun e => is_png e = true) (log st) = [EvPng 0 Matrix; EvPng 1 Fresh].
Proof.
  destruct (frames_show_earlier_iterates run_2x3_rank_4 crowded_world 2)
    as ((st & Hret & Hpng) & _); [reflexivity | simpl; lia |].
  exists st. split; [exact Hret | exact Hpng].
Defined.

End FrameFacts.
